(** * memcached/protocol.cc: the memcached protocol adapter of one shard

    A shallow embedding of [src/memcached/protocol.cc] and the properties its
    specification states about it.

    Conventions of the embedding.
    - The file is embedded as its checked build: [rassert] is a check whose
      failure ends the operation (the [DEBUG_ONLY] parameters, such as
      [expected_metainfo], only exist in that build).  A failed check is a
      [Fault] of the kind the specification gives it.
    - Overloads that live in other translation units ([operator<<] and
      [deserialize] for [bool], [int64_t], [std::string] and [key_range_t];
      the region algebra; the B-tree operations) are interfaces: type classes
      whose laws, where a property needs them, are separate classes.
      A reference implementation of each interface follows the interfaces.
    - Acquiring the superblock (FIFO tokens, order checkpoints, interruptors)
      is scheduling, not data: store operations are embedded from the point
      where the transaction holds the superblock. *)

From Stdlib Require Import Bool Ascii String Orders OrdersEx OrdersFacts.
From Stdlib Require Import Strings.Byte.
From Stdlib Require Import ZArith Lia List.
Import ListNotations.

Open Scope Z_scope.

(* ===================================================================== *)
(** * Part I. Definitions *)
(* ===================================================================== *)

(** ** Failures *)

(** The failure kinds of the specification (section 7), and the one C++
    exception the file can raise by itself ([boost::bad_get]). *)
Inductive failure : Type :=
| Interrupted
| MetainfoMismatch
| DecodeError
| DomainViolation
| BadGet
| PreconditionViolated.

Inductive result (A : Type) : Type :=
| Ok (a : A)
| Fault (f : failure).
Arguments Ok {A} a.
Arguments Fault {A} f.

Definition bind {A B} (r : result A) (k : A -> result B) : result B :=
  match r with
  | Ok a => k a
  | Fault f => Fault f
  end.

Declare Scope result_scope.
Delimit Scope result_scope with result.
Notation "x <- r ;; k" := (bind r (fun x => k))
  (at level 61, r at next level, right associativity) : result_scope.
Notation "' pat <- r ;; k" := (bind r (fun x => match x with pat => k end))
  (at level 61, pat pattern, r at next level, right associativity) : result_scope.

(** Modelled from the spec: [rassert] and [DEBUG_ONLY] are macros defined
    outside this file.  The specification reads an [rassert] as a check whose
    failure is an error of a named kind ("asserts", section 4.4; the error
    kinds of section 7), and a [DEBUG_ONLY] parameter as a parameter. *)
Definition rassert (c : bool) (f : failure) : result unit :=
  if c then Ok tt else Fault f.

(** ** Streams and messages *)

Module Archive.

(** Modelled from the spec: [read_stream_t] and [force_read] belong to
    containers/archive, which is not part of this file.  A stream is the bytes
    still to come, and whether the transport reports an error (-1) rather than
    end of file once they run out. *)
Record read_stream_t : Type := mk_stream {
  pending : list byte;
  fails_at_end : bool
}.

(** A [vector_read_stream_t] reads from a byte vector and never fails. *)
Definition vector_read_stream_t (v : list byte) : read_stream_t :=
  mk_stream v false.

(** A stream that first delivers [bs] and then continues as [s]. *)
Definition prepend (bs : list byte) (s : read_stream_t) : read_stream_t :=
  mk_stream (bs ++ pending s) (fails_at_end s).

(** Modelled from the spec: [force_read(s, p, n)] reads until it has [n]
    bytes; it returns how many it got (fewer than [n] at end of file), or -1
    when the transport fails.  The second component is what was written to
    [p]. *)
Definition force_read (s : read_stream_t) (n : Z)
  : Z * list byte * read_stream_t :=
  let k := Z.to_nat n in
  if (k <=? length (pending s))%nat then
    (Z.of_nat k, firstn k (pending s),
     mk_stream (skipn k (pending s)) (fails_at_end s))
  else if fails_at_end s then
    (-1, pending s, mk_stream [] true)
  else
    (Z.of_nat (length (pending s)), pending s, mk_stream [] false).

(** A [write_message_t] is the bytes appended so far. *)
Definition write_message_t : Type := list byte.

Definition append (msg : write_message_t) (p : list byte) (n : nat)
  : write_message_t :=
  msg ++ firstn n p.

(** The nonzero results of [deserialize]. *)
Inductive archive_error : Type :=
| sock_error      (* -1 *)
| sock_eof        (* -2 *)
| range_error.    (* -3 *)

Definition code (e : archive_error) : Z :=
  match e with
  | sock_error => -1
  | sock_eof => -2
  | range_error => -3
  end.

(** What a [deserialize] overload of another translation unit hands back: the
    decoded value and the stream behind it (result 0), or a nonzero result. *)
Inductive decoded (T : Type) : Type :=
| Decoded (x : T) (rest : read_stream_t)
| Failed (e : archive_error) (rest : read_stream_t).
Arguments Decoded {T} x rest.
Arguments Failed {T} e rest.

(** The pair of overloads [operator<<(write_message_t &, T)] and
    [deserialize(read_stream_t *, T * )] of a type serialised elsewhere. *)
Class Serializable (T : Type) : Type := {
  serialize : T -> list byte;
  deserialize : read_stream_t -> decoded T
}.

(** [msg << x]. *)
Definition put {T} `{Serializable T} (msg : write_message_t) (x : T)
  : write_message_t :=
  msg ++ serialize x.

(** Modelled from the spec: the law of a codec defined outside this file,
    on the values in [ok] ("encoding then decoding ... yields an equal"
    value): what was written is read back, and the stream is left right
    behind it. *)
Class Roundtrip (T : Type) `{Serializable T} (ok : T -> Prop) : Prop :=
  roundtrip : forall (x : T) (rest : read_stream_t),
    ok x -> deserialize (prepend (serialize x) rest) = Decoded x rest.

End Archive.
Import Archive.

(** ** Integers *)

Definition int64_min : Z := - 2 ^ 63.
Definition int64_max : Z := 2 ^ 63 - 1.

(** Conversion to [int64_t], with its wrap-around. *)
Definition to_int64 (z : Z) : Z :=
  (z + 2 ^ 63) mod 2 ^ 64 - 2 ^ 63.

Definition in_int64 (z : Z) : Prop := int64_min <= z <= int64_max.

(** ** Data buffers (lines 21-52) *)

(** A [data_buffer_t] is its bytes; [boost::intrusive_ptr<data_buffer_t>] is
    a possibly null reference to one. *)
Definition data_buffer_t : Type := list byte.
Definition data_buffer_ptr : Type := option data_buffer_t.

Definition size (buf : data_buffer_t) : nat := length buf.

(** Modelled from the spec: [data_buffer_t::create(size)] is defined outside
    this file; a data buffer is a "length-prefixed byte vector", and a new
    one has [size] bytes.  Their contents are not initialised in C++; the
    embedding fills them with zero bytes. *)
Definition data_buffer_create (n : Z) : data_buffer_t :=
  repeat x00 (Z.to_nat n).

(** Writing [p] at the start of [buf]. *)
Definition fill (buf : data_buffer_t) (p : list byte) : data_buffer_t :=
  p ++ skipn (length p) buf.

Section DataBuffer.
Context `{Serializable bool} `{Serializable Z}.

(** [operator<<(write_message_t &, const intrusive_ptr<data_buffer_t> &)] *)
Definition serialize_data_buffer (msg : write_message_t) (buf : data_buffer_ptr)
  : write_message_t :=
  match buf with
  | Some b =>
      let exists_ := true in
      let msg := put msg exists_ in
      let size_ := to_int64 (Z.of_nat (size b)) in
      let msg := put msg size_ in
      append msg b (size b)
  | None =>
      let exists_ := false in
      put msg exists_
  end.

(** [deserialize(read_stream_t *, intrusive_ptr<data_buffer_t> * )].
    The second argument is what [*buf] holds on entry; the result is the
    returned [int], what [*buf] holds on exit, and the stream. *)
Definition deserialize_data_buffer (s : read_stream_t) (buf : data_buffer_ptr)
  : Z * data_buffer_ptr * read_stream_t :=
  match deserialize (T := bool) s with
  | Failed e s => (code e, buf, s)
  | Decoded exists_ s =>
      if exists_ then
        match deserialize (T := Z) s with
        | Failed e s => (code e, buf, s)
        | Decoded size_ s =>
            if size_ <? 0 then (-3, buf, s)
            else
              let fresh := data_buffer_create size_ in
              let '(num_read, got, s) := force_read s size_ in
              let buf := Some (fill fresh got) in
              if num_read =? -1 then (-1, buf, s)
              else if num_read <? size_ then (-2, buf, s)
              else (0, buf, s)
        end
      else (0, buf, s)
  end.
End DataBuffer.

(** A buffer whose size an [int64_t] can hold; a null reference has no
    size. *)
Definition buffer_fits (buf : data_buffer_ptr) : Prop :=
  match buf with
  | Some b => Z.of_nat (size b) <= int64_max
  | None => True
  end.

(** ** One-way iterators (lines 54-69) *)

(** [one_way_iterator_t<T>::next()]: the next element, if any, and the
    iterator after the call. *)
Class one_way_iterator_t (I T : Type) : Type :=
  next : I -> option T * I.

Record vector_backed_one_way_iterator_t (T : Type) : Type := mk_vector_backed {
  data : list T;
  pos : nat
}.
Arguments mk_vector_backed {T} data pos.
Arguments data {T} _.
Arguments pos {T} _.

(** The default constructor: no data, [pos(0)]. *)
Definition vector_backed_new {T} : vector_backed_one_way_iterator_t T :=
  mk_vector_backed [] 0.

Definition push_back {T} (it : vector_backed_one_way_iterator_t T) (v : T)
  : vector_backed_one_way_iterator_t T :=
  mk_vector_backed (data it ++ [v]) (pos it).

Definition vector_backed_next {T} (it : vector_backed_one_way_iterator_t T)
  : option T * vector_backed_one_way_iterator_t T :=
  if (pos it <? length (data it))%nat then
    (nth_error (data it) (pos it), mk_vector_backed (data it) (S (pos it)))
  else
    (None, it).

#[export] Instance vector_backed_iterator {T}
  : one_way_iterator_t (vector_backed_one_way_iterator_t T) T :=
  vector_backed_next.

(** [drains it xs it']: calling [next] on [it] until it yields nothing
    yields [xs], in this order, and leaves the iterator as [it']. *)
Inductive drains {I T} `{one_way_iterator_t I T} : I -> list T -> I -> Prop :=
| drains_done it it' :
    next it = (None, it') -> drains it [] it'
| drains_more it x it1 xs it' :
    next it = (Some x, it1) -> drains it1 xs it' -> drains it (x :: xs) it'.

(** Doing so, for at most [fuel] calls of [next]. *)
Fixpoint drain {I T} `{one_way_iterator_t I T} (fuel : nat) (it : I)
  : option (list T * I) :=
  match fuel with
  | O => None
  | S fuel =>
      match next it with
      | (None, it) => Some ([], it)
      | (Some x, it) =>
          match drain fuel it with
          | Some (xs, it) => Some (x :: xs, it)
          | None => None
          end
      end
  end.

(** ** Range-read results (lines 72-108) *)

Record key_with_data_buffer_t : Type := mk_kv {
  kv_key : string;
  value_provider : data_buffer_ptr
}.

(** An element both of whose parts the codecs can carry, [key_ok] being what
    the codec of [std::string] can. *)
Definition element_ok (key_ok : string -> Prop) (kv : key_with_data_buffer_t) : Prop :=
  key_ok (kv_key kv) /\ buffer_fits (value_provider kv).

(** An [rget_result_t] is a shared pointer to a one-way iterator.  The two
    kinds of iterator this file builds: the vector-backed one (line 89) and
    the ordered merge of other results (lines 193-197). *)
#[warnings="-register-all"]
Inductive rget_result_t : Type :=
| vector_backed_result (it : vector_backed_one_way_iterator_t key_with_data_buffer_t)
| merged_results (mergees : list rget_result_t).

(** [next()] through the pointer.  Modelled from the spec:
    [merge_ordered_data_iterator_t] belongs to containers/iterators, which
    is not part of this file; it is "an ordered merge across all response
    iterators, keyed by key ascending", itself a lazy sequence: its next
    element is the least of the next elements of its mergees, and only the
    mergee that element comes from moves on. *)
Fixpoint rget_result_next (r : rget_result_t)
  : option key_with_data_buffer_t * rget_result_t :=
  match r with
  | vector_backed_result it =>
      let '(x, it) := vector_backed_next it in (x, vector_backed_result it)
  | merged_results mergees =>
      let fix least (ms : list rget_result_t)
        : option (key_with_data_buffer_t * list rget_result_t) :=
        match ms with
        | [] => None
        | m :: ms =>
            match rget_result_next m, least ms with
            | (None, _), None => None
            | (None, _), Some (y, ms') => Some (y, m :: ms')
            | (Some x, m'), None => Some (x, m' :: ms)
            | (Some x, m'), Some (y, ms') =>
                if (kv_key y <? kv_key x)%string then Some (y, m :: ms')
                else Some (x, m' :: ms)
            end
        end in
      match least mergees with
      | None => (None, merged_results mergees)
      | Some (x, mergees) => (Some x, merged_results mergees)
      end
  end.

#[export] Instance rget_result_iterator
  : one_way_iterator_t rget_result_t key_with_data_buffer_t :=
  rget_result_next.

Section RgetResult.
Context `{Serializable bool} `{Serializable Z} `{Serializable string}.

(** One turn of the loop body of [operator<<]: [next = true], the key, the
    data. *)
Definition serialize_element (msg : write_message_t) (kv : key_with_data_buffer_t)
  : write_message_t :=
  let key := kv_key kv in
  let data_ := value_provider kv in
  let next_ := true in
  let msg := put msg next_ in
  let msg := put msg key in
  serialize_data_buffer msg data_.

(** [operator<<(write_message_t &, const rget_result_t &)].  The loop runs
    for as long as the iterator yields; [fuel] bounds the number of turns
    and [None] means it was too small.  The iterator is advanced through
    the shared pointer, so its final state is part of the result. *)
Fixpoint serialize_rget_result {I} `{one_way_iterator_t I key_with_data_buffer_t}
    (fuel : nat) (msg : write_message_t) (iter : I)
  : option (write_message_t * I) :=
  match fuel with
  | O => None
  | S fuel =>
      match next iter with
      | (Some kv, iter) =>
          serialize_rget_result fuel (serialize_element msg kv) iter
      | (None, iter) =>
          let next_ := false in
          Some (put msg next_, iter)
      end
  end.

(** The [for (;;)] loop of [deserialize] for an [rget_result_t]: the
    returned [int] and the stream; [fuel] bounds the number of turns and
    [None] means it was too small.  Key and data are decoded into locals
    that are new in every turn, and dropped. *)
Fixpoint deserialize_rget_loop (fuel : nat) (s : read_stream_t)
  : option (Z * read_stream_t) :=
  match fuel with
  | O => None
  | S fuel =>
      match deserialize (T := bool) s with
      | Failed e s => Some (code e, s)
      | Decoded next_ s =>
          if negb next_ then Some (0, s)
          else
            match deserialize (T := string) s with
            | Failed e s => Some (code e, s)
            | Decoded key s =>
                match deserialize_data_buffer s None with
                | (0, data_, s) => deserialize_rget_loop fuel s
                | (res, data_, s) => Some (res, s)
                end
            end
      end
  end.

(** The bytes of one element on the wire: [next = true], the key, the
    data. *)
Definition frame (kv : key_with_data_buffer_t) : list byte :=
  serialize_element [] kv.

(** [deserialize(read_stream_t *, rget_result_t * )].  [*iter] is
    overwritten with a new, empty vector-backed iterator before anything is
    read, and nothing is pushed to it afterwards. *)
Definition deserialize_rget_result (fuel : nat) (s : read_stream_t)
  : option (Z * rget_result_t * read_stream_t) :=
  let iter := vector_backed_result vector_backed_new in
  match deserialize_rget_loop fuel s with
  | Some (res, s) => Some (res, iter, s)
  | None => None
  end.
End RgetResult.

(** ** Keys and key ranges *)

Definition MAX_KEY_SIZE : nat := 250.

(** A [store_key_t] has room for [MAX_KEY_SIZE] bytes and no more. *)
Record store_key_t : Type := mk_store_key {
  contents : string;
  size_ok : (String.length contents <=? MAX_KEY_SIZE)%nat = true
}.

(** The default key, of size 0. *)
Definition store_key_empty : store_key_t := mk_store_key EmptyString eq_refl.

(** The key with the given contents, when they fit. *)
Definition store_key_of_string (s : string) : option store_key_t :=
  match (String.length s <=? MAX_KEY_SIZE)%nat as b
        return ((String.length s <=? MAX_KEY_SIZE)%nat = b -> option store_key_t)
  with
  | true => fun H => Some (mk_store_key s H)
  | false => fun _ => None
  end eq_refl.

Definition store_key_eqb (a b : store_key_t) : bool :=
  String.eqb (contents a) (contents b).

(** [key_range_t::bound_t] *)
Inductive bound_t : Type := open | closed | none.

(** [key_range_t::right_bound_t]: [key] only counts when [unbounded] is
    false. *)
Record right_bound_t : Type := mk_right_bound {
  unbounded : bool;
  key : store_key_t
}.

(** A [key_range_t] as this file reads it: the keys from [left] on, up to but
    not including [right]. *)
Record key_range_t : Type := mk_key_range {
  left : store_key_t;
  right : right_bound_t
}.

(** Modelled from the spec: [key_range_t::universe()] is declared outside
    this file; "the universe range spans all keys", from the empty key on
    and unbounded on the right. *)
Definition universe : key_range_t :=
  mk_key_range store_key_empty (mk_right_bound true store_key_empty).

(** Modelled from the spec: [operator==] on key ranges is declared outside
    this file; two ranges are equal when their bounds are. *)
Definition right_bound_eqb (a b : right_bound_t) : bool :=
  Bool.eqb (unbounded a) (unbounded b) && store_key_eqb (key a) (key b).

Definition key_range_eqb (a b : key_range_t) : bool :=
  store_key_eqb (left a) (left b) && right_bound_eqb (right a) (right b).

(** Modelled from the spec: the comparison of keys is declared outside this
    file; a key is an "opaque byte sequence ... ordered
    lexicographically". *)
Definition store_key_compare (a b : store_key_t) : comparison :=
  String_as_OT.compare (contents a) (contents b).

Definition store_key_leb (a b : store_key_t) : bool :=
  match store_key_compare a b with Gt => false | _ => true end.

Definition store_key_ltb (a b : store_key_t) : bool :=
  match store_key_compare a b with Lt => true | _ => false end.

(** ** Region maps *)

(** A [region_map_t<memcached_protocol_t, V>] as this file uses it: built
    from, and iterated as, a sequence of (region, value) pairs. *)
Definition region_map_t (V : Type) : Type := list (key_range_t * V).

(** The part of the region algebra this file calls and does not define: the
    four-argument constructor of [key_range_t], [region_is_superset],
    [key_range_t::contains_key], and [get_domain], [mask] and [update] of
    [region_map_t]. *)
Class RegionAlgebra : Type := {
  key_range : bound_t -> store_key_t -> bound_t -> store_key_t -> key_range_t;
  region_is_superset : key_range_t -> key_range_t -> bool;
  contains_key : key_range_t -> store_key_t -> bool;
  get_domain : forall {V : Type}, region_map_t V -> key_range_t;
  mask : forall {V : Type}, region_map_t V -> key_range_t -> region_map_t V;
  update : forall {V : Type}, region_map_t V -> region_map_t V -> region_map_t V
}.

(** The value a region map has at a key: the value of the piece that holds
    the key, and none where no piece does ("a total function over a domain
    region, represented as a disjoint partition into sub-regions each
    carrying a V"). *)
Definition value_at `{RegionAlgebra} {V} (m : region_map_t V) (k : store_key_t)
  : option V :=
  match find (fun p => contains_key (fst p) k) m with
  | Some p => Some (snd p)
  | None => None
  end.

(** Two region maps agree: they are the same function of the key. *)
Definition region_map_agree `{RegionAlgebra} {V} (a b : region_map_t V) : Prop :=
  forall k : store_key_t, value_at a k = value_at b k.

Definition option_eqb {V} (veqb : V -> V -> bool) (a b : option V) : bool :=
  match a, b with
  | Some x, Some y => veqb x y
  | None, None => true
  | _, _ => false
  end.

(** The keys at which the pieces of a region map start and end. *)
Definition piece_ends {V} (p : key_range_t * V) : list store_key_t :=
  left (fst p)
    :: (if unbounded (right (fst p)) then [] else [key (right (fst p))]).

Definition region_map_ends {V} (m : region_map_t V) : list store_key_t :=
  flat_map piece_ends m.

(** Modelled from the spec: [operator==] on region maps is declared outside
    this file.  A region map is "a total function over a domain region", so
    two maps are equal when they have the same value, or none, at every key,
    however they are cut into pieces.  The pieces are ranges of keys, so a
    map changes its value at the ends of its pieces only: the two maps are
    compared at the least key and at the ends of the pieces of both. *)
Definition region_map_eqb `{RegionAlgebra} {V} (veqb : V -> V -> bool)
    (a b : region_map_t V) : bool :=
  forallb (fun k => option_eqb veqb (value_at a k) (value_at b k))
    (store_key_empty :: region_map_ends a ++ region_map_ends b).

(** Modelled from the spec: the contract of [region_map_t], which is defined
    outside this file, as far as the properties below rely on it.  "The
    union of partition regions equals the domain", so the domain of the map
    with the one piece [universe] is [universe]; [update] is an "overlay;
    domains of other must lie within self", so overlaying a map whose domain
    lies within the domain does not change the domain. *)
Class RegionAlgebraLaws `{RegionAlgebra} : Prop := {
  get_domain_universe : forall {V} (v : V),
    get_domain [(universe, v)] = universe;
  get_domain_update : forall {V} (old new : region_map_t V),
    region_is_superset (get_domain old) (get_domain new) = true ->
    get_domain (update old new) = get_domain old
}.

(** Modelled from the spec: the contract of [key_range_t::contains_key] and
    of [mask], which are defined outside this file.  A range holds the keys
    from its left key on that are below its right key, if it has one;
    [mask(sub)] is the restriction of the map to [sub]. *)
Class RegionMapLaws `{RegionAlgebra} : Prop := {
  contains_key_range : forall (r : key_range_t) (k : store_key_t),
    contains_key r k
    = store_key_leb (left r) k
      && (unbounded (right r) || store_key_ltb k (key (right r)));
  value_at_mask : forall {V} (m : region_map_t V) (sub : key_range_t)
                         (k : store_key_t),
    value_at (mask m sub) k
    = if contains_key sub k then value_at m k else None
}.

(** ** Queries, mutations and responses *)

Definition exptime_t : Type := Z.
Definition mcflags_t : Type := Z.
Definition cas_t : Type := Z.

Inductive rget_bound_mode_t : Type :=
| rget_bound_open
| rget_bound_closed
| rget_bound_none.

Record get_query_t : Type := mk_get_query {
  get_key : store_key_t
}.

Record rget_query_t : Type := mk_rget_query {
  left_mode : rget_bound_mode_t;
  left_key : store_key_t;
  right_mode : rget_bound_mode_t;
  right_key : store_key_t
}.

(** [boost::variant<get_query_t, rget_query_t>] *)
Inductive read_query_t : Type :=
| Get (get : get_query_t)
| Rget (rget : rget_query_t).

Record read_t : Type := mk_read {
  query : read_query_t;
  read_effective_time : exptime_t
}.

Inductive add_policy_t : Type := add_policy_yes | add_policy_no.
Inductive replace_policy_t : Type :=
  replace_policy_yes | replace_policy_if_cas_matches | replace_policy_no.
Inductive incr_decr_kind_t : Type := incr_decr_INCR | incr_decr_DECR.
Inductive append_prepend_kind_t : Type := append_prepend_APPEND | append_prepend_PREPEND.

Record get_cas_mutation_t : Type := mk_get_cas {
  gc_key : store_key_t
}.

Record sarc_mutation_t : Type := mk_sarc {
  sarc_key : store_key_t;
  sarc_data : data_buffer_ptr;
  sarc_flags : mcflags_t;
  sarc_exptime : exptime_t;
  sarc_add_policy : add_policy_t;
  sarc_replace_policy : replace_policy_t;
  sarc_old_cas : cas_t
}.

Record incr_decr_mutation_t : Type := mk_incr_decr {
  id_kind : incr_decr_kind_t;
  id_key : store_key_t;
  id_amount : Z
}.

Record append_prepend_mutation_t : Type := mk_append_prepend {
  ap_kind : append_prepend_kind_t;
  ap_key : store_key_t;
  ap_data : data_buffer_ptr
}.

Record delete_mutation_t : Type := mk_delete {
  del_key : store_key_t;
  dont_put_in_delete_queue : bool
}.

(** The variant of mutations of a [write_t]. *)
Inductive mutation_t : Type :=
| GetCas (m : get_cas_mutation_t)
| Sarc (m : sarc_mutation_t)
| IncrDecr (m : incr_decr_mutation_t)
| AppendPrepend (m : append_prepend_mutation_t)
| Delete (m : delete_mutation_t).

Record write_t : Type := mk_write {
  mutation : mutation_t;
  proposed_cas : cas_t;
  write_effective_time : exptime_t
}.

Record get_result_t : Type := mk_get_result {
  value : data_buffer_ptr;
  flags : mcflags_t;
  cas : cas_t
}.

(** [read_response_t::result], a variant of the two kinds of result. *)
Inductive read_response_t : Type :=
| get_result (r : get_result_t)
| rget_result (r : rget_result_t).

(** [boost::get<get_result_t>] and [boost::get<rget_result_t>] on that
    variant: they throw [boost::bad_get] on the other alternative. *)
Definition boost_get_get_result (r : read_response_t) : result get_result_t :=
  match r with
  | get_result g => Ok g
  | rget_result _ => Fault BadGet
  end.

Definition boost_get_rget_result (r : read_response_t) : result rget_result_t :=
  match r with
  | rget_result g => Ok g
  | get_result _ => Fault BadGet
  end.

(** ** The request algebra (lines 111-234) *)

(** [convert_bound_mode] *)
Definition convert_bound_mode (rbm : rget_bound_mode_t) : bound_t :=
  match rbm with
  | rget_bound_open => open
  | rget_bound_closed => closed
  | rget_bound_none => none
  end.

(** The default-constructed [rget_query_t] of [read_shard_visitor_t]: its keys
    are empty; its modes are not initialised, and both are assigned before
    the query is used. *)
Definition rget_query_new : rget_query_t :=
  mk_rget_query rget_bound_none store_key_empty rget_bound_none store_key_empty.

Module Read.
Section ReadT.
Context `{RegionAlgebra}.

(** [read_get_region_visitor_t] and [read_t::get_region] *)
Definition get_region (r : read_t) : key_range_t :=
  match query r with
  | Get get => key_range closed (get_key get) closed (get_key get)
  | Rget rget =>
      key_range (convert_bound_mode (left_mode rget)) (left_key rget)
                (convert_bound_mode (right_mode rget)) (right_key rget)
  end.

(** [read_shard_visitor_t] and [read_t::shard] *)
Definition shard (r : read_t) (region : key_range_t) : result read_t :=
  let effective_time := read_effective_time r in
  match query r with
  | Get get =>
      (_ <- rassert (key_range_eqb region
                       (key_range closed (get_key get) closed (get_key get)))
                    PreconditionViolated ;;
       Ok (mk_read (Get get) effective_time))%result
  | Rget original_rget =>
      (_ <- rassert (region_is_superset
                       (key_range (convert_bound_mode (left_mode original_rget))
                                  (left_key original_rget)
                                  (convert_bound_mode (right_mode original_rget))
                                  (right_key original_rget))
                       region)
                    PreconditionViolated ;;
       let sub_rget := rget_query_new in
       let sub_rget :=
         mk_rget_query rget_bound_closed (left region)
                       (right_mode sub_rget) (right_key sub_rget) in
       let sub_rget :=
         if unbounded (right region) then
           mk_rget_query (left_mode sub_rget) (left_key sub_rget)
                         rget_bound_none (right_key sub_rget)
         else
           mk_rget_query (left_mode sub_rget) (left_key sub_rget)
                         rget_bound_open (key (right region)) in
       Ok (mk_read (Rget sub_rget) effective_time))%result
  end.

(** The loop of the [rget_query_t] case of [read_unshard_visitor_t]: every
    response is read as a range result and added to the merge. *)
Fixpoint add_mergees (bits : list read_response_t) (merged : list rget_result_t)
  : result (list rget_result_t) :=
  match bits with
  | [] => Ok merged
  | b :: bits =>
      (r <- boost_get_rget_result b ;;
       add_mergees bits (merged ++ [r]))%result
  end.

(** [read_unshard_visitor_t] and [read_t::unshard] *)
Definition unshard (r : read_t) (responses : list read_response_t)
  : result read_response_t :=
  match query r with
  | Get _ =>
      (_ <- rassert (Nat.eqb (length responses) 1) DomainViolation ;;
       match responses with
       | b :: _ => g <- boost_get_get_result b ;; Ok (get_result g)
       | [] => Fault DomainViolation
       end)%result
  | Rget _ =>
      (merge_iterator <- add_mergees responses [] ;;
       Ok (rget_result (merged_results merge_iterator)))%result
  end.
End ReadT.
End Read.

(** The key every kind of mutation carries
    ("All the types of mutation have a member called `key`"). *)
Definition mutation_key (m : mutation_t) : store_key_t :=
  match m with
  | GetCas m => gc_key m
  | Sarc m => sarc_key m
  | IncrDecr m => id_key m
  | AppendPrepend m => ap_key m
  | Delete m => del_key m
  end.

Module Write.
Section WriteT.
Context `{RegionAlgebra}.

(** [write_get_region_visitor_t] and [write_t::get_region]: the visitor is
    one template, instantiated at each kind of mutation. *)
Definition get_region (w : write_t) : key_range_t :=
  match mutation w with
  | GetCas mut => key_range closed (gc_key mut) closed (gc_key mut)
  | Sarc mut => key_range closed (sarc_key mut) closed (sarc_key mut)
  | IncrDecr mut => key_range closed (id_key mut) closed (id_key mut)
  | AppendPrepend mut => key_range closed (ap_key mut) closed (ap_key mut)
  | Delete mut => key_range closed (del_key mut) closed (del_key mut)
  end.

(** [write_t::shard] *)
Definition shard (w : write_t) (region : key_range_t) : result write_t :=
  (_ <- rassert (key_range_eqb region (get_region w)) PreconditionViolated ;;
   Ok w)%result.

(** [write_t::unshard], for any type of response. *)
Definition unshard {write_response_t : Type} (w : write_t)
    (responses : list write_response_t) : result write_response_t :=
  (_ <- rassert (Nat.eqb (length responses) 1) DomainViolation ;;
   match responses with
   | r :: _ => Ok r
   | [] => Fault DomainViolation
   end)%result.
End WriteT.
End Write.

(** ** The B-tree layer *)

(** A [backfill_atom_t], with the fields this file reads. *)
Record backfill_atom_t (repli_timestamp_t : Type) : Type := mk_backfill_atom {
  atom_key : store_key_t;
  atom_value : data_buffer_ptr;
  atom_flags : mcflags_t;
  atom_exptime : exptime_t;
  atom_recency : repli_timestamp_t;
  atom_cas_or_zero : cas_t
}.
Arguments atom_key {_} _.
Arguments atom_value {_} _.
Arguments atom_flags {_} _.
Arguments atom_exptime {_} _.
Arguments atom_recency {_} _.
Arguments atom_cas_or_zero {_} _.

(** What a B-tree traversal reports to its [backfill_callback_t]; the key
    pointers of [on_delete_range] may be null. *)
Inductive backfill_event (repli_timestamp_t : Type) : Type :=
| on_delete_range (left_exclusive right_inclusive : option store_key_t)
| on_deletion (k : store_key_t) (recency : repli_timestamp_t)
| on_keyvalue (atom : backfill_atom_t repli_timestamp_t).
Arguments on_delete_range {_} _ _.
Arguments on_deletion {_} _ _.
Arguments on_keyvalue {_} _.

(** The types and operations of the B-tree, the cache and the timestamps that
    this file uses and does not define.  [btree_slice_t] is the contents of
    the slice as seen through the superblock of the current transaction; an
    operation that changes it returns the new contents. *)
Class BtreeLayer : Type := {
  btree_slice_t : Type;
  repli_timestamp_t : Type;
  state_timestamp_t : Type;
  transition_timestamp_t : Type;
  traversal_progress_t : Type;
  set_result_t : Type;
  incr_decr_result_t : Type;
  append_prepend_result_t : Type;
  delete_result_t : Type;

  repli_timestamp_invalid : repli_timestamp_t;
  state_to_repli_timestamp : state_timestamp_t -> repli_timestamp_t;
  transition_to_repli_timestamp : transition_timestamp_t -> repli_timestamp_t;
  INVALID_CAS : cas_t;

  (** [btree_slice_t::create] on a new cache. *)
  btree_slice_create : btree_slice_t;

  memcached_get :
    store_key_t -> btree_slice_t -> exptime_t -> get_result_t;
  memcached_rget_slice :
    btree_slice_t -> rget_bound_mode_t -> store_key_t ->
    rget_bound_mode_t -> store_key_t -> exptime_t -> rget_result_t;
  memcached_get_cas :
    store_key_t -> btree_slice_t -> cas_t -> exptime_t -> repli_timestamp_t ->
    get_result_t * btree_slice_t;
  memcached_set :
    store_key_t -> btree_slice_t -> data_buffer_ptr -> mcflags_t -> exptime_t ->
    add_policy_t -> replace_policy_t -> cas_t -> cas_t -> exptime_t ->
    repli_timestamp_t -> set_result_t * btree_slice_t;
  memcached_incr_decr :
    store_key_t -> btree_slice_t -> bool -> Z -> cas_t -> exptime_t ->
    repli_timestamp_t -> incr_decr_result_t * btree_slice_t;
  memcached_append_prepend :
    store_key_t -> btree_slice_t -> data_buffer_ptr -> bool -> cas_t ->
    exptime_t -> repli_timestamp_t -> append_prepend_result_t * btree_slice_t;
  memcached_delete :
    store_key_t -> bool -> btree_slice_t -> exptime_t -> repli_timestamp_t ->
    delete_result_t * btree_slice_t;
  (** The two overloads of [memcached_erase_range]: by bounds, and by
      region.  The tester may be null. *)
  memcached_erase_range :
    btree_slice_t -> option (store_key_t -> bool) ->
    bool -> store_key_t -> bool -> store_key_t -> btree_slice_t;
  memcached_erase_range_in :
    btree_slice_t -> option (store_key_t -> bool) -> key_range_t -> btree_slice_t;
  (** [memcached_backfill]: the calls it makes on its callback, in order, and
      the progress object it was given as it stands afterwards. *)
  memcached_backfill :
    btree_slice_t -> key_range_t -> repli_timestamp_t ->
    list (backfill_event repli_timestamp_t) * traversal_progress_t
}.

Section Responses.
Context `{BtreeLayer}.

(** [write_response_t::result], a variant of the results of the
    mutations. *)
Inductive write_response_t : Type :=
| wr_get_result (r : get_result_t)
| wr_set_result (r : set_result_t)
| wr_incr_decr_result (r : incr_decr_result_t)
| wr_append_prepend_result (r : append_prepend_result_t)
| wr_delete_result (r : delete_result_t).

(** [backfill_chunk_t::val] *)
Inductive backfill_chunk_t : Type :=
| delete_range (range : key_range_t)
| delete_key (k : store_key_t) (recency : repli_timestamp_t)
| set_key (backfill_atom : backfill_atom_t repli_timestamp_t).
End Responses.

(** ** The store (lines 236-688) *)

Definition binary_blob_t : Type := list byte.
Definition metainfo_t : Type := region_map_t binary_blob_t.

Definition binary_blob_eqb (a b : binary_blob_t) : bool :=
  if list_eq_dec byte_eq_dec a b then true else false.

(** A [backfill_progress_t] is the constituents added to it. *)
Definition backfill_progress_t `{BtreeLayer} : Type := list traversal_progress_t.

(** What a transaction holding the superblock sees of a store: the metainfo
    pairs kept on the superblock and the contents of the slice. *)
Record store_t `{BtreeLayer} : Type := mk_store {
  sb_metainfo : list (list byte * list byte);
  btree : btree_slice_t
}.
Arguments mk_store {_} _ _.
Arguments sb_metainfo {_} _.
Arguments btree {_} _.

Section Superblock.
Context `{BtreeLayer}.

(** Modelled from the spec: [clear_superblock_metainfo],
    [set_superblock_metainfo] and [get_superblock_metainfo] belong to
    btree/operations, which is not part of this file.  The metainfo is
    "persisted on the superblock as a flat sequence of
    (serialized_key_range, bytes) pairs": clearing empties the sequence,
    setting writes one more pair, getting reads all pairs. *)
Definition clear_superblock_metainfo (st : store_t) : store_t :=
  mk_store [] (btree st).

Definition set_superblock_metainfo (st : store_t) (k v : list byte) : store_t :=
  mk_store (sb_metainfo st ++ [(k, v)]) (btree st).

Definition get_superblock_metainfo (st : store_t) : list (list byte * list byte) :=
  sb_metainfo st.
End Superblock.

(** Modelled from the spec: [send_write_message] belongs to
    containers/archive; sent to a [vector_stream_t], a message ends up as the
    stream's vector, and the result is 0. *)
Definition send_write_message (msg : write_message_t) : Z * list byte :=
  (0, msg).

Module Store.
Section StoreT.
Context `{RegionAlgebra} `{BtreeLayer} `{Serializable key_range_t}.

(** [store_t::store_t(filename, create)].  [file] is what [filename]
    holds when the store is opened; with [create], serializer, cache and
    slice are created anew and the metainfo is initialised. *)
Definition new (file : store_t) (create : bool) : result store_t :=
  if create then
    let st := mk_store [] btree_slice_create in
    let st := clear_superblock_metainfo st in
    let msg : write_message_t := [] in
    let kr := universe in
    let msg := put msg kr in
    let '(res, key) := send_write_message msg in
    (_ <- rassert (res =? 0) PreconditionViolated ;;
     Ok (set_superblock_metainfo st key []))%result
  else
    Ok file.

(** The loop of [get_metainfo_internal]: each key is read back as a region
    from a [vector_read_stream_t] over it, and pushed with its value. *)
Fixpoint read_pairs (kv_pairs : list (list byte * list byte))
    (result_ : list (key_range_t * binary_blob_t))
  : result (list (key_range_t * binary_blob_t)) :=
  match kv_pairs with
  | [] => Ok result_
  | (k, value_) :: kv_pairs =>
      match deserialize (T := key_range_t) (vector_read_stream_t k) with
      | Failed _ _ => Fault DecodeError
      | Decoded region _ => read_pairs kv_pairs (result_ ++ [(region, value_)])
      end
  end.

(** [store_t::get_metainfo_internal] *)
Definition get_metainfo_internal (st : store_t) : result metainfo_t :=
  (let kv_pairs := get_superblock_metainfo st in
   result_ <- read_pairs kv_pairs [] ;;
   let res : metainfo_t := result_ in
   _ <- rassert (key_range_eqb (get_domain res) universe) DomainViolation ;;
   Ok res)%result.

(** [store_t::get_metainfo] *)
Definition get_metainfo (st : store_t) : result metainfo_t :=
  get_metainfo_internal st.

(** The loop of [update_metainfo]: one pair per piece of the map. *)
Fixpoint write_pairs (pieces : list (key_range_t * binary_blob_t)) (st : store_t)
  : result store_t :=
  match pieces with
  | [] => Ok st
  | (region, blob) :: pieces =>
      let msg : write_message_t := [] in
      let msg := put msg region in
      let '(res, key) := send_write_message msg in
      (_ <- rassert (res =? 0) PreconditionViolated ;;
       let value_ : list byte := blob in
       write_pairs pieces (set_superblock_metainfo st key value_))%result
  end.

(** [store_t::update_metainfo] *)
Definition update_metainfo (old_metainfo new_metainfo : metainfo_t) (st : store_t)
  : result store_t :=
  (let updated_metadata := update old_metainfo new_metainfo in
   _ <- rassert (key_range_eqb (get_domain updated_metadata) universe)
                DomainViolation ;;
   let st := clear_superblock_metainfo st in
   write_pairs updated_metadata st)%result.

(** [store_t::check_metainfo] *)
Definition check_metainfo (expected_metainfo : metainfo_t) (st : store_t)
  : result metainfo_t :=
  (old_metainfo <- get_metainfo_internal st ;;
   _ <- rassert (region_map_eqb binary_blob_eqb
                   (mask old_metainfo (get_domain expected_metainfo))
                   expected_metainfo)
                MetainfoMismatch ;;
   Ok old_metainfo)%result.

(** [store_t::check_and_update_metainfo] *)
Definition check_and_update_metainfo (expected_metainfo new_metainfo : metainfo_t)
    (st : store_t) : result store_t :=
  (old_metainfo <- check_metainfo expected_metainfo st ;;
   update_metainfo old_metainfo new_metainfo st)%result.

(** [store_t::set_metainfo] *)
Definition set_metainfo (new_metainfo : metainfo_t) (st : store_t)
  : result store_t :=
  (old_metainfo <- get_metainfo_internal st ;;
   update_metainfo old_metainfo new_metainfo st)%result.

(** [read_visitor_t] *)
Definition read_visitor (q : read_query_t) (effective_time : exptime_t)
    (st : store_t) : read_response_t :=
  match q with
  | Get get =>
      get_result (memcached_get (get_key get) (btree st) effective_time)
  | Rget rget =>
      rget_result (memcached_rget_slice (btree st)
                     (left_mode rget) (left_key rget)
                     (right_mode rget) (right_key rget) effective_time)
  end.

(** [store_t::read] *)
Definition read (expected_metainfo : metainfo_t) (r : read_t) (st : store_t)
  : result read_response_t :=
  (_ <- check_metainfo expected_metainfo st ;;
   Ok (read_visitor (query r) (read_effective_time r) st))%result.

(** [write_visitor_t]: the response, and the store with the slice as the
    operation left it. *)
Definition write_visitor (m : mutation_t) (proposed_cas_ : cas_t)
    (effective_time : exptime_t) (timestamp : repli_timestamp_t) (st : store_t)
  : result (write_response_t * store_t) :=
  let done {R} (wrap : R -> write_response_t) (r : R * btree_slice_t) :=
    Ok (wrap (fst r), mk_store (sb_metainfo st) (snd r)) in
  match m with
  | GetCas m =>
      done wr_get_result
        (memcached_get_cas (gc_key m) (btree st) proposed_cas_ effective_time
           timestamp)
  | Sarc m =>
      done wr_set_result
        (memcached_set (sarc_key m) (btree st) (sarc_data m) (sarc_flags m)
           (sarc_exptime m) (sarc_add_policy m) (sarc_replace_policy m)
           (sarc_old_cas m) proposed_cas_ effective_time timestamp)
  | IncrDecr m =>
      done wr_incr_decr_result
        (memcached_incr_decr (id_key m) (btree st)
           (match id_kind m with incr_decr_INCR => true | _ => false end)
           (id_amount m) proposed_cas_ effective_time timestamp)
  | AppendPrepend m =>
      done wr_append_prepend_result
        (memcached_append_prepend (ap_key m) (btree st) (ap_data m)
           (match ap_kind m with append_prepend_APPEND => true | _ => false end)
           proposed_cas_ effective_time timestamp)
  | Delete m =>
      (_ <- rassert (proposed_cas_ =? INVALID_CAS) PreconditionViolated ;;
       done wr_delete_result
         (memcached_delete (del_key m) (dont_put_in_delete_queue m) (btree st)
            effective_time timestamp))%result
  end.

(** [store_t::write] *)
Definition write (expected_metainfo new_metainfo : metainfo_t) (w : write_t)
    (timestamp : transition_timestamp_t) (st : store_t)
  : result (write_response_t * store_t) :=
  (st <- check_and_update_metainfo expected_metainfo new_metainfo st ;;
   write_visitor (mutation w) (proposed_cas w) (write_effective_time w)
     (transition_to_repli_timestamp timestamp) st)%result.

(** [memcached_backfill_callback_t]: the chunk handed to [chunk_fun] for
    each call of the traversal. *)
Definition memcached_backfill_callback (e : backfill_event repli_timestamp_t)
  : backfill_chunk_t :=
  match e with
  | on_delete_range left_exclusive right_inclusive =>
      delete_range
        (key_range
           (match left_exclusive with Some _ => open | None => none end)
           (match left_exclusive with Some k => k | None => store_key_empty end)
           (match right_inclusive with Some _ => closed | None => none end)
           (match right_inclusive with Some k => k | None => store_key_empty end))
  | on_deletion k recency => delete_key k recency
  | on_keyvalue atom => set_key atom
  end.

(** What the traversal of one piece of [start_point] hands to
    [chunk_fun], and the progress object of that traversal. *)
Definition piece_chunks (st : store_t) (p : key_range_t * state_timestamp_t)
  : list backfill_chunk_t :=
  map memcached_backfill_callback
    (fst (memcached_backfill (btree st) (fst p)
            (state_to_repli_timestamp (snd p)))).

Definition piece_progress (st : store_t) (p : key_range_t * state_timestamp_t)
  : traversal_progress_t :=
  snd (memcached_backfill (btree st) (fst p)
         (state_to_repli_timestamp (snd p))).

(** The loop of [send_backfill] over the pieces of [start_point]: the
    chunks handed to [chunk_fun] so far, in order, and the progress. *)
Fixpoint backfill_pieces (pieces : list (key_range_t * state_timestamp_t))
    (chunks : list backfill_chunk_t) (progress : backfill_progress_t)
    (st : store_t) : list backfill_chunk_t * backfill_progress_t :=
  match pieces with
  | [] => (chunks, progress)
  | (range, ts) :: pieces =>
      let since_when := state_to_repli_timestamp ts in
      let '(events, p) := memcached_backfill (btree st) range since_when in
      let progress := progress ++ [p] in
      backfill_pieces pieces (chunks ++ map memcached_backfill_callback events)
        progress st
  end.

(** [store_t::send_backfill]: the returned [bool], the chunks handed to
    [chunk_fun], in order, and the progress as it stands afterwards. *)
Definition send_backfill (start_point : region_map_t state_timestamp_t)
    (should_backfill : metainfo_t -> bool) (progress : backfill_progress_t)
    (st : store_t) : result (bool * list backfill_chunk_t * backfill_progress_t) :=
  (current <- get_metainfo_internal st ;;
   let metainfo := mask current (get_domain start_point) in
   if should_backfill metainfo then
     let '(chunks, progress) := backfill_pieces start_point [] progress st in
     Ok (true, chunks, progress)
   else
     Ok (false, [], progress))%result.

(** [receive_backfill_visitor_t] and [store_t::receive_backfill] *)
Definition receive_backfill (chunk : backfill_chunk_t) (st : store_t) : store_t :=
  match chunk with
  | delete_key k _ =>
      mk_store (sb_metainfo st)
        (snd (memcached_delete k true (btree st) 0 repli_timestamp_invalid))
  | delete_range range =>
      let tester := fun k => contains_key range k in
      let left_supplied :=
        (0 <? String.length (contents (left range)))%nat in
      let right_supplied := negb (unbounded (right range)) in
      mk_store (sb_metainfo st)
        (memcached_erase_range (btree st) (Some tester)
           left_supplied (left range) right_supplied (key (right range)))
  | set_key bf_atom =>
      mk_store (sb_metainfo st)
        (snd (memcached_set (atom_key bf_atom) (btree st)
                (atom_value bf_atom) (atom_flags bf_atom) (atom_exptime bf_atom)
                add_policy_yes replace_policy_yes INVALID_CAS
                (atom_cas_or_zero bf_atom) 0 repli_timestamp_invalid))
  end.

(** [store_t::reset_data] *)
Definition reset_data (subregion : key_range_t) (new_metainfo : metainfo_t)
    (st : store_t) : result store_t :=
  (old_metainfo <- get_metainfo_internal st ;;
   st <- update_metainfo old_metainfo new_metainfo st ;;
   Ok (mk_store (sb_metainfo st)
         (memcached_erase_range_in (btree st) None subregion)))%result.

(** The pair a piece of a region map is persisted as. *)
Definition persisted (p : key_range_t * binary_blob_t) : list byte * list byte :=
  (serialize (fst p), snd p).

(** A store whose metainfo reads back, with domain [universe]. *)
Definition metainfo_ok (st : store_t) : Prop :=
  exists m, get_metainfo_internal st = Ok m /\ get_domain m = universe.

(** The states a store goes through: created, then one public operation
    that returns after another. *)
Inductive step : store_t -> store_t -> Prop :=
| step_write expected new w ts st rsp st' :
    write expected new w ts st = Ok (rsp, st') -> step st st'
| step_set_metainfo new st st' :
    set_metainfo new st = Ok st' -> step st st'
| step_reset_data sub new st st' :
    reset_data sub new st = Ok st' -> step st st'
| step_receive_backfill chunk st :
    step st (receive_backfill chunk st).

Inductive reachable : store_t -> Prop :=
| reachable_new file st :
    new file true = Ok st -> reachable st
| reachable_step st st' :
    reachable st -> step st st' -> reachable st'.
End StoreT.
End Store.

(** ** Reference implementations of the interfaces *)

(** The interfaces above stand for code in other files.  This module gives
    each of them an implementation that follows the specification's words,
    so that the store can be run on examples and the laws are seen to
    hold of something. *)
Module Reference.

(** *** Codecs *)

Definition Z_of_byte (b : byte) : Z := Z.of_N (Byte.to_N b).

Definition byte_of_Z (z : Z) : byte :=
  match Byte.of_N (Z.to_N (z mod 256)) with
  | Some b => b
  | None => x00
  end.

(** Little-endian digits in base 256. *)
Fixpoint le_encode (n : nat) (u : Z) : list byte :=
  match n with
  | O => []
  | S n => byte_of_Z u :: le_encode n (u / 256)
  end.

Fixpoint le_decode (bs : list byte) : Z :=
  match bs with
  | [] => 0
  | b :: bs => Z_of_byte b + 256 * le_decode bs
  end.

(** Reading [n] bytes, the way the primitive decoders use [force_read]: -1
    is a transport error, too few bytes is an end of file. *)
Definition read_exactly (s : read_stream_t) (n : nat) : decoded (list byte) :=
  let '(num_read, got, s) := force_read s (Z.of_nat n) in
  if num_read =? -1 then Failed sock_error s
  else if num_read <? Z.of_nat n then Failed sock_eof s
  else Decoded got s.

(** Modelled from the spec: the codecs of [bool], [int64_t], [std::string]
    and [key_range_t] belong to containers/archive and btree/keys, which are
    not part of this file.  The specification fixes that framing is
    length-prefixed and that a negative size is an error; the layouts chosen
    here are a [bool] as one byte (0 or 1), an [int64_t] as its eight bytes,
    least significant first, a [std::string] as its [int64_t] size and its
    bytes, a key as its one-byte size and its bytes, and a key range as its
    left key, its unbounded flag and its right key. *)
#[export] Instance bool_serializable : Serializable bool := {
  serialize b := [if b then x01 else x00];
  deserialize s :=
    match read_exactly s 1 with
    | Failed e s => Failed e s
    | Decoded [x00] s => Decoded false s
    | Decoded [x01] s => Decoded true s
    | Decoded _ s => Failed range_error s
    end
}.

#[export] Instance int64_serializable : Serializable Z := {
  serialize z := le_encode 8 (z mod 2 ^ 64);
  deserialize s :=
    match read_exactly s 8 with
    | Failed e s => Failed e s
    | Decoded bs s => Decoded (to_int64 (le_decode bs)) s
    end
}.

#[export] Instance string_serializable : Serializable string := {
  serialize s :=
    serialize (to_int64 (Z.of_nat (String.length s))) ++ list_byte_of_string s;
  deserialize s :=
    match deserialize (T := Z) s with
    | Failed e s => Failed e s
    | Decoded sz s =>
        if sz <? 0 then Failed range_error s
        else
          match read_exactly s (Z.to_nat sz) with
          | Failed e s => Failed e s
          | Decoded bs s => Decoded (string_of_list_byte bs) s
          end
    end
}.

#[export] Instance store_key_serializable : Serializable store_key_t := {
  serialize k :=
    byte_of_Z (Z.of_nat (String.length (contents k)))
      :: list_byte_of_string (contents k);
  deserialize s :=
    match read_exactly s 1 with
    | Failed e s => Failed e s
    | Decoded [] s => Failed sock_eof s
    | Decoded (n :: _) s =>
        match read_exactly s (Z.to_nat (Z_of_byte n)) with
        | Failed e s => Failed e s
        | Decoded bs s =>
            match store_key_of_string (string_of_list_byte bs) with
            | Some k => Decoded k s
            | None => Failed range_error s
            end
        end
    end
}.

#[export] Instance key_range_serializable : Serializable key_range_t := {
  serialize r :=
    serialize (left r) ++ serialize (unbounded (right r))
      ++ serialize (key (right r));
  deserialize s :=
    match deserialize (T := store_key_t) s with
    | Failed e s => Failed e s
    | Decoded l s =>
        match deserialize (T := bool) s with
        | Failed e s => Failed e s
        | Decoded u s =>
            match deserialize (T := store_key_t) s with
            | Failed e s => Failed e s
            | Decoded k s => Decoded (mk_key_range l (mk_right_bound u k)) s
            end
        end
    end
}.

(** A [std::string] whose size an [int64_t] can hold. *)
Definition string_fits (s : string) : Prop :=
  Z.of_nat (String.length s) <= int64_max.

(** *** Key ranges as intervals *)

(** A point of the key space, or [None] for the end past every key. *)
Definition ext : Type := option store_key_t.

Definition ext_compare (x y : ext) : comparison :=
  match x, y with
  | None, None => Eq
  | None, Some _ => Gt
  | Some _, None => Lt
  | Some a, Some b => String_as_OT.compare (contents a) (contents b)
  end.

Definition ext_leb (x y : ext) : bool :=
  match ext_compare x y with Gt => false | _ => true end.

Definition ext_ltb (x y : ext) : bool :=
  match ext_compare x y with Lt => true | _ => false end.

Definition ext_min (x y : ext) : ext := if ext_leb x y then x else y.
Definition ext_max (x y : ext) : ext := if ext_leb x y then y else x.

(** The two ends of a range: it holds the keys from [lo] on that are below
    [hi]. *)
Definition lo (r : key_range_t) : ext := Some (left r).
Definition hi (r : key_range_t) : ext :=
  if unbounded (right r) then None else Some (key (right r)).

(** [key_range_t::empty()] *)
Definition empty_range : key_range_t :=
  mk_key_range store_key_empty (mk_right_bound false store_key_empty).

(** The range between two ends. *)
Definition make (l h : ext) : key_range_t :=
  match l with
  | None => empty_range
  | Some k =>
      mk_key_range k
        (match h with
         | None => mk_right_bound true store_key_empty
         | Some k' => mk_right_bound false k'
         end)
  end.

Definition region_is_empty (r : key_range_t) : bool := ext_leb (hi r) (lo r).

Definition region_contains_key (r : key_range_t) (k : store_key_t) : bool :=
  ext_leb (lo r) (Some k) && ext_ltb (Some k) (hi r).

Definition region_intersection (a b : key_range_t) : key_range_t :=
  make (ext_max (lo a) (lo b)) (ext_min (hi a) (hi b)).

Definition is_superset (a b : key_range_t) : bool :=
  region_is_empty b || (ext_leb (lo a) (lo b) && ext_leb (hi b) (hi a)).

(** A range as a list of pieces: none when it is empty. *)
Definition keep (r : key_range_t) : list key_range_t :=
  if region_is_empty r then [] else [r].

(** What is left of [r] outside [s]: the part below [s] and the part from
    the end of [s] on. *)
Definition region_subtract (r s : key_range_t) : list key_range_t :=
  if region_is_empty (region_intersection r s) then keep r
  else keep (make (lo r) (ext_min (hi r) (lo s)))
         ++ keep (make (ext_max (lo r) (hi s)) (hi r)).

Fixpoint region_subtract_many (pieces : list key_range_t) (ss : list key_range_t)
  : list key_range_t :=
  match ss with
  | [] => pieces
  | s :: ss =>
      region_subtract_many (flat_map (fun p => region_subtract p s) pieces) ss
  end.

(** The least range that holds two ranges. *)
Definition region_span (a b : key_range_t) : key_range_t :=
  if region_is_empty a then
    if region_is_empty b then empty_range else make (lo b) (hi b)
  else if region_is_empty b then make (lo a) (hi a)
  else make (ext_min (lo a) (lo b)) (ext_max (hi a) (hi b)).

(** The two ends of a range that is not empty. *)
Definition ends (r : key_range_t) : option (ext * ext) :=
  if region_is_empty r then None else Some (lo r, hi r).

Definition of_ends (e : option (ext * ext)) : key_range_t :=
  match e with
  | None => empty_range
  | Some (l, h) => make l h
  end.

Definition span_ends (a b : option (ext * ext)) : option (ext * ext) :=
  match a, b with
  | None, _ => b
  | _, None => a
  | Some (l1, h1), Some (l2, h2) => Some (ext_min l1 l2, ext_max h1 h2)
  end.

Definition hull_ends (rs : list key_range_t) : option (ext * ext) :=
  fold_right (fun r acc => span_ends (ends r) acc) None rs.

(** The successor of a key among the keys of at most [MAX_KEY_SIZE] bytes,
    if it has one. *)
Fixpoint bump (reversed : list ascii) : option (list ascii) :=
  match reversed with
  | [] => None
  | c :: rest =>
      if (N_of_ascii c =? 255)%N then bump rest
      else Some (ascii_of_N (N_of_ascii c + 1) :: rest)
  end.

Definition increment (k : store_key_t) : option store_key_t :=
  let s := contents k in
  if (String.length s <? MAX_KEY_SIZE)%nat then
    store_key_of_string (s ++ String zero EmptyString)
  else
    match bump (rev (list_ascii_of_string s)) with
    | Some l => store_key_of_string (string_of_list_ascii (rev l))
    | None => None
    end.

(** Modelled from the spec: the region algebra belongs to btree/keys and
    protocol_api, which are not part of this file.  A key range is built
    from "(left_bound, left_key, right_bound, right_key_or_unbounded) where
    each bound is none, open or closed"; a region map is "a disjoint
    partition into sub-regions each carrying a V", with "mask(sub)" its
    restriction and "update(other)" the overlay of [other] on it.  The
    domain of a map is taken to be the span of its pieces; whether the
    pieces are adjacent is not checked here. *)
#[export] Instance region_algebra : RegionAlgebra := {
  key_range lm l rm r :=
    match (match lm with
           | closed => Some l
           | open => increment l
           | none => Some store_key_empty
           end) with
    | None => empty_range
    | Some lk =>
        mk_key_range lk
          (match rm with
           | closed =>
               match increment r with
               | Some r' => mk_right_bound false r'
               | None => mk_right_bound true store_key_empty
               end
           | open => mk_right_bound false r
           | none => mk_right_bound true store_key_empty
           end)
    end;
  region_is_superset := is_superset;
  contains_key := region_contains_key;
  get_domain V m := fold_right (fun p acc => region_span (fst p) acc) empty_range m;
  mask V m sub :=
    flat_map (fun p => map (fun r => (r, snd p))
                         (keep (region_intersection (fst p) sub))) m;
  update V old new :=
    flat_map (fun p => map (fun r => (r, snd p))
                         (region_subtract_many (keep (fst p)) (map fst new))) old
      ++ new
}.

(** The key with the given contents, or the empty key when they are too
    long. *)
Definition key_of (s : string) : store_key_t :=
  match store_key_of_string s with
  | Some k => k
  | None => store_key_empty
  end.

(** *** A B-tree in memory *)

Definition entry : Type := store_key_t * (data_buffer_ptr * mcflags_t * cas_t).

Definition lookup (k : store_key_t) (slice : list entry) : option entry :=
  find (fun e => store_key_eqb (fst e) k) slice.

Definition remove (k : store_key_t) (slice : list entry) : list entry :=
  filter (fun e => negb (store_key_eqb (fst e) k)) slice.

(** Putting an entry at its place in key order, instead of the entry of the
    same key if there is one. *)
Fixpoint insert (e : entry) (slice : list entry) : list entry :=
  match slice with
  | [] => [e]
  | e' :: rest =>
      if store_key_eqb (fst e) (fst e') then e :: rest
      else if (contents (fst e) <? contents (fst e'))%string then e :: slice
      else e' :: insert e rest
  end.

Definition within (lm : rget_bound_mode_t) (l : store_key_t)
    (rm : rget_bound_mode_t) (r : store_key_t) (k : store_key_t) : bool :=
  region_contains_key
    (key_range (convert_bound_mode lm) l (convert_bound_mode rm) r) k.

(** A stand-in for the B-tree layer: the slice is an association list in
    key order, the timestamps are integers, a progress object counts the
    calls made on the callback; policies, expiry and the arithmetic and
    concatenating mutations are left out.  None of the properties depends on
    it. *)
#[export] Instance btree_layer : BtreeLayer := {
  btree_slice_t := list entry;
  repli_timestamp_t := Z;
  state_timestamp_t := Z;
  transition_timestamp_t := Z;
  traversal_progress_t := nat;
  set_result_t := bool;
  incr_decr_result_t := option Z;
  append_prepend_result_t := bool;
  delete_result_t := bool;

  repli_timestamp_invalid := -1;
  state_to_repli_timestamp ts := ts;
  transition_to_repli_timestamp ts := ts;
  INVALID_CAS := 2 ^ 64 - 1;

  btree_slice_create := [];

  memcached_get k slice _ :=
    match lookup k slice with
    | Some (_, (v, f, c)) => mk_get_result v f c
    | None => mk_get_result None 0 0
    end;
  memcached_rget_slice slice lm l rm r _ :=
    vector_backed_result
      (mk_vector_backed
         (map (fun e : entry => mk_kv (contents (fst e)) (fst (fst (snd e))))
              (filter (fun e : entry => within lm l rm r (fst e)) slice))
         0);
  memcached_get_cas k slice proposed _ _ :=
    match lookup k slice with
    | Some (_, (v, f, _)) =>
        (mk_get_result v f proposed, insert (k, (v, f, proposed)) slice)
    | None => (mk_get_result None 0 0, slice)
    end;
  memcached_set k slice v f _ _ _ _ proposed _ _ :=
    (true, insert (k, (v, f, proposed)) slice);
  memcached_incr_decr _ slice _ _ _ _ _ := (None, slice);
  memcached_append_prepend _ slice _ _ _ _ _ := (false, slice);
  memcached_delete k _ slice _ _ :=
    (match lookup k slice with Some _ => true | None => false end,
     remove k slice);
  memcached_erase_range slice tester left_supplied l right_supplied r :=
    filter (fun e : entry =>
              negb (match tester with Some t => t (fst e) | None => true end
                    && within (if left_supplied then rget_bound_open
                               else rget_bound_none) l
                              (if right_supplied then rget_bound_closed
                               else rget_bound_none) r (fst e)))
           slice;
  memcached_erase_range_in slice tester region :=
    filter (fun e : entry =>
              negb (match tester with Some t => t (fst e) | None => true end
                    && region_contains_key region (fst e)))
           slice;
  memcached_backfill slice range _ :=
    let hits := filter (fun e : entry => region_contains_key range (fst e)) slice in
    (map (fun e : entry =>
            on_keyvalue
              (mk_backfill_atom Z (fst e) (fst (fst (snd e))) (snd (fst (snd e)))
                 0 0 (snd (snd e))))
         hits,
     length hits)
}.

(** *** Examples *)

(** The store as [store_t::store_t] creates it. *)
Definition created : store_t := mk_store [(serialize universe, [])] [].

(** The keys from "a" up to, and without, "b". *)
Definition a_to_b : key_range_t :=
  key_range closed (key_of "a") open (key_of "b").

(** A [Set] of a key to a value that is stored whatever was there, and the
    store after a run of them on a store just created. *)
Definition set_mutation (k : string) (v : list byte) : write_t :=
  mk_write
    (Sarc (mk_sarc (key_of k) (Some v) 0 0 add_policy_yes replace_policy_yes
             INVALID_CAS))
    1 0.

Fixpoint populated (kvs : list (string * list byte)) : result store_t :=
  match kvs with
  | [] => Ok created
  | (k, v) :: kvs =>
      (st <- populated kvs ;;
       '(_, st) <- Store.write [] [] (set_mutation k v) 1 st ;;
       Ok st)%result
  end.

End Reference.

(** ** Further definitions for the properties of Part II *)

(** Modelled from the spec: a law of the decoders defined outside this file.
    A decoder reads from the stream ("length-prefixed framing"): when it
    succeeds, at least [n] of the pending bytes are gone and none has been
    added. *)
Class Consumes (T : Type) `{Serializable T} (n : nat) : Prop :=
  consumes : forall (s : read_stream_t) (x : T) (rest : read_stream_t),
    deserialize s = Decoded x rest ->
    (length (pending rest) + n <= length (pending s))%nat.

(** The region a persisted key reads back as, the way
    [get_metainfo_internal] reads it: from a [vector_read_stream_t] over the
    key, whatever is left of the key afterwards. *)
Definition decode_key `{Serializable key_range_t} (k : list byte)
  : option key_range_t :=
  match deserialize (T := key_range_t) (vector_read_stream_t k) with
  | Decoded region _ => Some region
  | Failed _ _ => None
  end.


(* ===================================================================== *)
(** * Part II. Properties *)
(* ===================================================================== *)

(** ** Streams *)

Lemma prepend_nil (s : read_stream_t) : prepend [] s = s.
Proof. destruct s; reflexivity. Qed.

Lemma prepend_app (a b : list byte) (s : read_stream_t) :
  prepend (a ++ b) s = prepend a (prepend b s).
Proof. unfold prepend; simpl. now rewrite app_assoc. Qed.

Lemma vector_read_stream_prepend (v : list byte) :
  vector_read_stream_t v = prepend v (vector_read_stream_t []).
Proof. unfold vector_read_stream_t, prepend; simpl. now rewrite app_nil_r. Qed.

(** Reading exactly the bytes that head the stream. *)
Lemma force_read_prepend (bs : list byte) (s : read_stream_t) :
  force_read (prepend bs s) (Z.of_nat (length bs)) = (Z.of_nat (length bs), bs, s).
Proof.
  unfold force_read, prepend; simpl.
  rewrite Nat2Z.id, length_app.
  replace (length bs <=? length bs + length (pending s))%nat with true
    by (symmetry; apply Nat.leb_le; lia).
  rewrite firstn_app, Nat.sub_diag, firstn_all, firstn_O, app_nil_r.
  rewrite skipn_app, Nat.sub_diag, skipn_all, skipn_O.
  destruct s; reflexivity.
Qed.

Lemma to_int64_id (z : Z) : in_int64 z -> to_int64 z = z.
Proof.
  unfold in_int64, int64_min, int64_max, to_int64; intros Hz.
  rewrite Z.mod_small by lia. lia.
Qed.

Lemma fill_create (b : list byte) :
  fill (data_buffer_create (Z.of_nat (length b))) b = b.
Proof.
  unfold fill, data_buffer_create.
  rewrite Nat2Z.id, skipn_all2 by (rewrite repeat_length; lia).
  apply app_nil_r.
Qed.

(** ** The data-buffer codec *)

Section DataBufferCodec.
Context {Sb : Serializable bool} {Sz : Serializable Z}.
Context {Rb : Roundtrip bool (fun _ => True)} {Rz : Roundtrip Z in_int64}.

Lemma serialize_data_buffer_app (msg : write_message_t) (buf : data_buffer_ptr) :
  serialize_data_buffer msg buf = msg ++ serialize_data_buffer [] buf.
Proof.
  destruct buf; unfold serialize_data_buffer, append, put; simpl;
    now rewrite <- ?app_assoc.
Qed.

(** A present buffer is read back whatever the destination held. *)
Lemma deserialize_data_buffer_present (b : data_buffer_t)
    (dst : data_buffer_ptr) (rest : read_stream_t) :
  buffer_fits (Some b) ->
  deserialize_data_buffer (prepend (serialize_data_buffer [] (Some b)) rest) dst
  = (0, Some b, rest).
Proof.
  unfold buffer_fits, size; intros Hfit.
  assert (Hin : in_int64 (Z.of_nat (length b)))
    by (unfold in_int64, int64_min; split; [lia | exact Hfit]).
  unfold serialize_data_buffer, deserialize_data_buffer, append, put, size; simpl.
  rewrite to_int64_id by exact Hin.
  rewrite firstn_all, <- app_assoc, !prepend_app.
  rewrite (roundtrip (T := bool)) by exact I.
  rewrite (roundtrip (T := Z)) by exact Hin.
  replace (Z.of_nat (length b) <? 0) with false by (symmetry; apply Z.ltb_ge; lia).
  rewrite force_read_prepend, fill_create.
  replace (Z.of_nat (length b) =? -1) with false by (symmetry; apply Z.eqb_neq; lia).
  now rewrite Z.ltb_irrefl.
Qed.

(** An absent buffer leaves the destination as it was: only the flag is
    read. *)
Lemma deserialize_data_buffer_absent (dst : data_buffer_ptr) (rest : read_stream_t) :
  deserialize_data_buffer (prepend (serialize_data_buffer [] None) rest) dst
  = (0, dst, rest).
Proof.
  unfold serialize_data_buffer, deserialize_data_buffer, put; simpl.
  now rewrite (roundtrip (T := bool)) by exact I.
Qed.

(** Into a default-constructed (null) reference, every buffer reference
    is read back as it was written. *)
Lemma deserialize_data_buffer_fresh (buf : data_buffer_ptr) (rest : read_stream_t) :
  buffer_fits buf ->
  deserialize_data_buffer (prepend (serialize_data_buffer [] buf) rest) None
  = (0, buf, rest).
Proof.
  destruct buf as [b|]; intros Hfit.
  - now apply deserialize_data_buffer_present.
  - apply deserialize_data_buffer_absent.
Qed.

(** C10. Round trip of the data-buffer codec.  [operator<<] writes the
    exists flag and, for a present buffer, its size as an [int64_t]
    followed by that many bytes.  On what was written, [deserialize] returns
    0; a present buffer is restored, size and bytes, whatever the destination
    held, and an absent one leaves the destination as it was.  So for every
    buffer reference, the null one included, deserialising into a
    default-constructed reference yields a reference equal to the original:
    null for null, a buffer of the same size and bytes for a present one. *)
Theorem data_buffer_roundtrip (buf : data_buffer_ptr) (rest : read_stream_t) :
  buffer_fits buf ->
  serialize_data_buffer [] buf
  = match buf with
    | Some b =>
        serialize true ++ serialize (Z.of_nat (size b)) ++ firstn (size b) b
    | None => serialize false
    end
  /\ (forall dst : data_buffer_ptr,
        deserialize_data_buffer (prepend (serialize_data_buffer [] buf) rest) dst
        = (0, match buf with Some b => Some b | None => dst end, rest))
  /\ deserialize_data_buffer (prepend (serialize_data_buffer [] buf) rest) None
     = (0, buf, rest).
Proof.
  intros Hfit. split; [|split].
  - destruct buf as [b|]; [|reflexivity].
    unfold serialize_data_buffer, append, put; simpl.
    rewrite to_int64_id; [now rewrite <- app_assoc|].
    unfold buffer_fits in Hfit. unfold in_int64, int64_min. lia.
  - intros dst. destruct buf as [b|].
    + now apply deserialize_data_buffer_present.
    + apply deserialize_data_buffer_absent.
  - now apply deserialize_data_buffer_fresh.
Qed.
End DataBufferCodec.

(** ** Iterators *)

(** What a vector-backed iterator yields: the elements from [pos] on. *)
Lemma vector_backed_drains {T} (d : list T) (p : nat) :
  (p <= length d)%nat ->
  drains (mk_vector_backed d p) (skipn p d) (mk_vector_backed d (length d)).
Proof.
  intros Hp. remember (length d - p)%nat as n eqn:Hn.
  revert p Hp Hn. induction n as [|n IH]; intros p Hp Hn.
  - assert (p = length d) by lia; subst p.
    rewrite skipn_all. apply drains_done.
    unfold next, vector_backed_iterator, vector_backed_next; simpl.
    now rewrite Nat.ltb_irrefl.
  - destruct (nth_error d p) as [x|] eqn:Hx.
    2:{ apply nth_error_None in Hx. lia. }
    assert (Hs : skipn p d = x :: skipn (S p) d).
    { clear - Hx. revert p Hx. induction d as [|y d IH]; intros [|p] Hx;
        simpl in *; try discriminate.
      - now inversion Hx.
      - now apply IH. }
    rewrite Hs. eapply drains_more.
    + unfold next, vector_backed_iterator, vector_backed_next; simpl.
      replace (p <? length d)%nat with true by (symmetry; apply Nat.ltb_lt; lia).
      now rewrite Hx.
    + apply IH; lia.
Qed.

Lemma drain_drains {I T} `{one_way_iterator_t I T} (fuel : nat) :
  forall (it it' : I) (xs : list T),
    drain fuel it = Some (xs, it') -> drains it xs it'.
Proof.
  induction fuel as [|fuel IH]; intros it it' xs; simpl; [discriminate|].
  destruct (next it) as [[x|] it1] eqn:Hn.
  - destruct (drain fuel it1) as [[xs1 it2]|] eqn:Hd; [|discriminate].
    intros E; inversion E; subst. eapply drains_more; eauto.
  - intros E; inversion E; subst. now apply drains_done.
Qed.

(** A new vector-backed iterator yields nothing. *)
Lemma vector_backed_new_drains {T} :
  drains (@vector_backed_new T) [] vector_backed_new.
Proof. apply drains_done. reflexivity. Qed.

(** ** The codec of range-read results *)

Section RgetCodec.
Context {Sb : Serializable bool} {Sz : Serializable Z} {Ss : Serializable string}.

Lemma serialize_element_app (msg : write_message_t) (kv : key_with_data_buffer_t) :
  serialize_element msg kv = msg ++ frame kv.
Proof.
  unfold frame, serialize_element, put; simpl.
  rewrite serialize_data_buffer_app.
  rewrite (serialize_data_buffer_app (_ ++ _)).
  now rewrite <- !app_assoc.
Qed.

Lemma frame_unfold (kv : key_with_data_buffer_t) :
  frame kv = serialize true ++ serialize (kv_key kv)
               ++ serialize_data_buffer [] (value_provider kv).
Proof.
  unfold frame, serialize_element, put; simpl.
  rewrite serialize_data_buffer_app. now rewrite <- app_assoc.
Qed.

Section Writing.
Context {I : Type} {It : one_way_iterator_t I key_with_data_buffer_t}.

Lemma serialize_rget_result_drains (it it' : I) (xs : list key_with_data_buffer_t) :
  drains it xs it' ->
  forall (fuel : nat) (msg : write_message_t),
    (length xs < fuel)%nat ->
    serialize_rget_result fuel msg it
    = Some (msg ++ flat_map frame xs ++ serialize false, it').
Proof.
  induction 1 as [it it' Hn | it x it1 xs it' Hn Hd IH]; intros fuel msg Hf.
  - destruct fuel as [|fuel]; [simpl in Hf; lia|].
    simpl. rewrite Hn. reflexivity.
  - destruct fuel as [|fuel]; [simpl in Hf; lia|].
    simpl. rewrite Hn. rewrite IH by (simpl in Hf; lia).
    rewrite serialize_element_app. now rewrite <- !app_assoc.
Qed.

(** C6. Serialising a range-read result writes, for each element the
    iterator yields and in that order, [next = true], the key and the
    data buffer, and after the last one a single [next = false]; for a
    result that yields nothing it writes that one [next = false] and
    nothing else. *)
Theorem serialize_rget_result_framing
    (it it' : I) (xs : list key_with_data_buffer_t) (fuel : nat)
    (msg : write_message_t) :
  drains it xs it' ->
  (length xs < fuel)%nat ->
  serialize_rget_result fuel msg it
  = Some (msg ++ flat_map
                   (fun kv => serialize true ++ serialize (kv_key kv)
                                ++ serialize_data_buffer [] (value_provider kv))
                   xs
              ++ serialize false, it')
  /\ (xs = [] ->
      serialize_rget_result fuel msg it = Some (msg ++ serialize false, it')).
Proof.
  intros Hd Hf.
  assert (E : serialize_rget_result fuel msg it
              = Some (msg ++ flat_map frame xs ++ serialize false, it'))
    by now apply serialize_rget_result_drains.
  split.
  - rewrite E. now rewrite (flat_map_ext _ _ frame_unfold).
  - intros ->. exact E.
Qed.
End Writing.

Section Reading.
Context {Rb : Roundtrip bool (fun _ => True)} {Rz : Roundtrip Z in_int64}.
Context {key_ok : string -> Prop} {Rs : Roundtrip string key_ok}.

Lemma deserialize_rget_loop_frames (xs : list key_with_data_buffer_t) :
  Forall (element_ok key_ok) xs ->
  forall (fuel : nat) (rest : read_stream_t),
    (length xs < fuel)%nat ->
    deserialize_rget_loop fuel
      (prepend (flat_map frame xs ++ serialize false) rest)
    = Some (0, rest).
Proof.
  induction 1 as [|kv xs [Hk Hb] _ IH]; intros fuel rest Hf.
  - destruct fuel as [|fuel]; [simpl in Hf; lia|].
    simpl. rewrite (roundtrip (T := bool)) by exact I. reflexivity.
  - destruct fuel as [|fuel]; [simpl in Hf; lia|].
    cbn [flat_map deserialize_rget_loop].
    rewrite frame_unfold, <- !app_assoc, !prepend_app.
    rewrite (roundtrip (T := bool)) by exact I. cbn [negb].
    rewrite (roundtrip (T := string)) by exact Hk.
    rewrite deserialize_data_buffer_fresh by exact Hb.
    rewrite <- prepend_app. apply IH. simpl in Hf; lia.
Qed.

(** C9. On every well-framed stream (the frames of any number of
    elements, the terminator, then anything) the deserialiser of a
    range-read result returns 0, leaves the stream behind the terminator,
    and hands back an iterator that yields nothing: the elements it
    decoded are not kept. *)
Theorem deserialize_rget_result_retains_nothing
    (xs : list key_with_data_buffer_t) (fuel : nat) (rest : read_stream_t) :
  Forall (element_ok key_ok) xs ->
  (length xs < fuel)%nat ->
  let it := vector_backed_result vector_backed_new in
  deserialize_rget_result fuel
    (prepend (flat_map frame xs ++ serialize false) rest)
  = Some (0, it, rest)
  /\ drains it [] it.
Proof.
  intros Hok Hf it. split.
  - unfold deserialize_rget_result.
    now rewrite deserialize_rget_loop_frames.
  - apply drains_done. reflexivity.
Qed.
End Reading.
End RgetCodec.

(** ** Equality of keys, ranges and region maps *)

Lemma store_key_ext (a b : store_key_t) : contents a = contents b -> a = b.
Proof.
  destruct a as [ca pa], b as [cb pb]; simpl; intros ->.
  f_equal. apply Eqdep_dec.UIP_dec, bool_dec.
Qed.

Lemma store_key_eqb_eq (a b : store_key_t) : store_key_eqb a b = true <-> a = b.
Proof.
  unfold store_key_eqb. rewrite String.eqb_eq. split.
  - apply store_key_ext.
  - now intros ->.
Qed.

Lemma right_bound_eqb_eq (a b : right_bound_t) : right_bound_eqb a b = true <-> a = b.
Proof.
  unfold right_bound_eqb. rewrite andb_true_iff, eqb_true_iff, store_key_eqb_eq.
  destruct a, b; simpl. split.
  - now intros [-> ->].
  - intros E; inversion E; auto.
Qed.

Lemma key_range_eqb_eq (a b : key_range_t) : key_range_eqb a b = true <-> a = b.
Proof.
  unfold key_range_eqb. rewrite andb_true_iff, store_key_eqb_eq, right_bound_eqb_eq.
  destruct a, b; simpl. split.
  - now intros [-> ->].
  - intros E; inversion E; auto.
Qed.

Lemma key_range_eqb_refl (a : key_range_t) : key_range_eqb a a = true.
Proof. now apply key_range_eqb_eq. Qed.

Lemma binary_blob_eqb_eq (a b : binary_blob_t) : binary_blob_eqb a b = true <-> a = b.
Proof.
  unfold binary_blob_eqb. destruct (list_eq_dec byte_eq_dec a b); split;
    congruence.
Qed.

Lemma option_eqb_eq {V} (veqb : V -> V -> bool) :
  (forall x y, veqb x y = true <-> x = y) ->
  forall a b : option V, option_eqb veqb a b = true <-> a = b.
Proof.
  intros Hv [x|] [y|]; simpl; try (split; [discriminate | congruence]).
  - rewrite Hv. split; congruence.
  - tauto.
Qed.

(** Maps that agree at every key are equal, however they are cut. *)
Lemma region_map_eqb_of_agree {RA : RegionAlgebra} {V} (veqb : V -> V -> bool) :
  (forall x y, veqb x y = true <-> x = y) ->
  forall a b : region_map_t V,
    region_map_agree a b -> region_map_eqb veqb a b = true.
Proof.
  intros Hv a b Hab. unfold region_map_eqb. apply forallb_forall.
  intros k _. apply (option_eqb_eq veqb Hv). apply Hab.
Qed.


(** ** The request algebra *)

Section RequestAlgebra.
Context {RA : RegionAlgebra}.

(** C8. The region of a [Get] of key [k], and of a write of any kind of
    mutation with key [k], is the closed point range from [k] to [k]; the
    region of an [Rget] is the range built from its left and right keys,
    with its bound modes mapped open to open, closed to closed and none to
    none. *)
Theorem get_region_spec :
  (forall (k : store_key_t) (et : exptime_t),
      Read.get_region (mk_read (Get (mk_get_query k)) et)
      = key_range closed k closed k)
  /\ (forall (m : mutation_t) (pc : cas_t) (et : exptime_t),
      Write.get_region (mk_write m pc et)
      = key_range closed (mutation_key m) closed (mutation_key m))
  /\ (forall (q : rget_query_t) (et : exptime_t),
      Read.get_region (mk_read (Rget q) et)
      = key_range (convert_bound_mode (left_mode q)) (left_key q)
                  (convert_bound_mode (right_mode q)) (right_key q))
  /\ convert_bound_mode rget_bound_open = open
  /\ convert_bound_mode rget_bound_closed = closed
  /\ convert_bound_mode rget_bound_none = none.
Proof.
  repeat split.
  intros [m|m|m|m|m] pc et; reflexivity.
Qed.

(** C2. Sharding an [Rget] to a range [sub] that lies within its region
    gives an [Rget] whose left mode is closed with [sub]'s left key, whose
    right mode is none when [sub] is unbounded on the right and otherwise
    open with [sub]'s right key, and whose effective time is the original
    one; sharding a [Get] to its point region gives the same read back. *)
Theorem shard_spec :
  (forall (q : rget_query_t) (et : exptime_t) (sub : key_range_t),
      region_is_superset (Read.get_region (mk_read (Rget q) et)) sub = true ->
      exists q',
        Read.shard (mk_read (Rget q) et) sub = Ok (mk_read (Rget q') et)
        /\ left_mode q' = rget_bound_closed
        /\ left_key q' = left sub
        /\ (unbounded (right sub) = true -> right_mode q' = rget_bound_none)
        /\ (unbounded (right sub) = false ->
            right_mode q' = rget_bound_open /\ right_key q' = key (right sub)))
  /\ (forall (g : get_query_t) (et : exptime_t) (sub : key_range_t),
      sub = Read.get_region (mk_read (Get g) et) ->
      Read.shard (mk_read (Get g) et) sub = Ok (mk_read (Get g) et)).
Proof.
  split.
  - intros q et sub Hsup. unfold Read.shard; simpl.
    unfold Read.get_region in Hsup; simpl in Hsup. rewrite Hsup; simpl.
    destruct (unbounded (right sub)) eqn:Hu;
      eexists; (split; [reflexivity|]); simpl; repeat split;
      congruence.
  - intros g et sub ->. unfold Read.shard, Read.get_region; simpl.
    now rewrite key_range_eqb_refl.
Qed.
End RequestAlgebra.

(** A vector of length other than 1. *)
Lemma length_not_1 {A} (l : list A) :
  length l <> 1%nat -> Nat.eqb (length l) 1 = false.
Proof. intros Hl. now apply Nat.eqb_neq. Qed.

(** ** The metainfo on the superblock *)

Section Metainfo.
Context {RA : RegionAlgebra} {BL : BtreeLayer} {Sk : Serializable key_range_t}.

Lemma write_pairs_spec (pieces : metainfo_t) (st : store_t) :
  Store.write_pairs pieces st
  = Ok (mk_store (sb_metainfo st ++ map Store.persisted pieces) (btree st)).
Proof.
  revert st. induction pieces as [|[r v] pieces IH]; intros st; simpl.
  - rewrite app_nil_r. now destruct st.
  - rewrite IH. unfold set_superblock_metainfo, Store.persisted, put; simpl.
    now rewrite <- app_assoc.
Qed.

(** Reading the metainfo only looks at the pairs on the superblock. *)
Lemma get_metainfo_internal_pairs (st st' : store_t) :
  sb_metainfo st = sb_metainfo st' ->
  Store.get_metainfo_internal st = Store.get_metainfo_internal st'.
Proof.
  unfold Store.get_metainfo_internal, get_superblock_metainfo. now intros ->.
Qed.

(** What [get_metainfo_internal] returns has passed its domain check. *)
Lemma get_metainfo_internal_domain (st : store_t) (m : metainfo_t) :
  Store.get_metainfo_internal st = Ok m -> get_domain m = universe.
Proof.
  unfold Store.get_metainfo_internal.
  destruct (Store.read_pairs _ _) as [res|]; simpl; [|discriminate].
  unfold rassert.
  destruct (key_range_eqb (get_domain res) universe) eqn:E; simpl;
    [|discriminate].
  intros Hm; inversion Hm; subst. now apply key_range_eqb_eq.
Qed.

(** The B-tree operations of a write leave the metainfo pairs alone. *)
Lemma write_visitor_pairs m pc et ts (st : store_t) rsp st' :
  Store.write_visitor m pc et ts st = Ok (rsp, st') ->
  sb_metainfo st' = sb_metainfo st.
Proof.
  unfold Store.write_visitor.
  destruct m; try (intros E; inversion E; reflexivity).
  unfold rassert. destruct (pc =? INVALID_CAS); simpl;
    intros E; inversion E; reflexivity.
Qed.

Lemma receive_backfill_pairs chunk (st : store_t) :
  sb_metainfo (Store.receive_backfill chunk st) = sb_metainfo st.
Proof. destruct chunk; reflexivity. Qed.

Section WithRoundtrip.
Context {Rk : Roundtrip key_range_t (fun _ => True)}.

Lemma read_pairs_persisted (pieces acc : metainfo_t) :
  Store.read_pairs (map Store.persisted pieces) acc = Ok (acc ++ pieces).
Proof.
  revert acc. induction pieces as [|[r v] pieces IH]; intros acc; simpl.
  - now rewrite app_nil_r.
  - rewrite vector_read_stream_prepend, roundtrip by exact I.
    rewrite IH. now rewrite <- app_assoc.
Qed.

(** Persisting a map of domain [universe] and reading it back. *)
Lemma persist_then_read (m : metainfo_t) (st : store_t) :
  get_domain m = universe ->
  exists st',
    Store.write_pairs m (clear_superblock_metainfo st) = Ok st'
    /\ sb_metainfo st' = map Store.persisted m
    /\ btree st' = btree st
    /\ Store.get_metainfo_internal st' = Ok m.
Proof.
  intros Hd. rewrite write_pairs_spec. eexists. split; [reflexivity|].
  simpl. repeat split.
  unfold Store.get_metainfo_internal, get_superblock_metainfo; simpl.
  rewrite read_pairs_persisted; simpl.
  now rewrite Hd, key_range_eqb_refl.
Qed.

(** [update_metainfo] returns exactly when the overlaid map has domain
    [universe], and then that map is what is read back. *)
Lemma update_metainfo_ok (old new : metainfo_t) (st st' : store_t) :
  Store.update_metainfo old new st = Ok st' ->
  Store.get_metainfo_internal st' = Ok (update old new)
  /\ btree st' = btree st.
Proof.
  unfold Store.update_metainfo, rassert.
  destruct (key_range_eqb (get_domain (update old new)) universe) eqn:E;
    simpl; [|discriminate].
  apply key_range_eqb_eq in E.
  destruct (persist_then_read (update old new) st E) as (st1 & Hw & _ & Hb & Hr).
  rewrite Hw. intros Hst; inversion Hst; subst. auto.
Qed.

(** C5. Round trip of the metainfo: persisting a region map [m] of
    domain [universe] the way [update_metainfo] does (the pairs cleared,
    then one pair of serialised key range and blob bytes per piece) and
    reading it back with [get_metainfo_internal] gives [m]; so
    [update_metainfo], whose map is the overlay of [new] on [old], is
    followed by a read of exactly that overlay. *)
Theorem metainfo_roundtrip :
  (forall (m : metainfo_t) (st : store_t),
      get_domain m = universe ->
      exists st',
        Store.write_pairs m (clear_superblock_metainfo st) = Ok st'
        /\ sb_metainfo st' = map (fun p => (serialize (fst p), snd p)) m
        /\ Store.get_metainfo_internal st' = Ok m)
  /\ (forall (old new : metainfo_t) (st : store_t),
      get_domain (update old new) = universe ->
      exists st',
        Store.update_metainfo old new st = Ok st'
        /\ Store.get_metainfo_internal st' = Ok (update old new)).
Proof.
  split.
  - intros m st Hd.
    destruct (persist_then_read m st Hd) as (st' & Hw & Hp & _ & Hr).
    exists st'. auto.
  - intros old new st Hd.
    destruct (persist_then_read _ st Hd) as (st' & Hw & _ & _ & Hr).
    exists st'. split; [|exact Hr].
    unfold Store.update_metainfo. now rewrite Hd, key_range_eqb_refl.
Qed.

Lemma step_metainfo_ok (st st' : store_t) :
  Store.step st st' -> Store.metainfo_ok st -> Store.metainfo_ok st'.
Proof.
  intros Hstep Hok. destruct Hstep as
    [expected new w ts st rsp st' Hw | new st st' Hs | sub new st st' Hr
    | chunk st].
  - unfold Store.write, Store.check_and_update_metainfo in Hw.
    destruct (Store.check_metainfo expected st) as [old|]; simpl in Hw;
      [|discriminate].
    destruct (Store.update_metainfo old new st) as [st1|] eqn:Hu; simpl in Hw;
      [|discriminate].
    apply update_metainfo_ok in Hu as [Hu _].
    apply write_visitor_pairs in Hw.
    exists (update old new). split.
    + now rewrite (get_metainfo_internal_pairs st' st1 Hw).
    + eapply get_metainfo_internal_domain; eauto.
  - unfold Store.set_metainfo in Hs.
    destruct (Store.get_metainfo_internal st) as [old|]; simpl in Hs;
      [|discriminate].
    apply update_metainfo_ok in Hs as [Hs _].
    exists (update old new). split; [exact Hs|].
    eapply get_metainfo_internal_domain; eauto.
  - unfold Store.reset_data in Hr.
    destruct (Store.get_metainfo_internal st) as [old|]; simpl in Hr;
      [|discriminate].
    destruct (Store.update_metainfo old new st) as [st1|] eqn:Hu; simpl in Hr;
      [|discriminate].
    apply update_metainfo_ok in Hu as [Hu _].
    inversion Hr; subst st'.
    exists (update old new). split.
    + erewrite get_metainfo_internal_pairs; [exact Hu | reflexivity].
    + eapply get_metainfo_internal_domain; eauto.
  - destruct Hok as (m & Hm & Hd). exists m. split; [|exact Hd].
    now rewrite (get_metainfo_internal_pairs _ st (receive_backfill_pairs _ _)).
Qed.

Section WithRegionLaws.
Context {RL : RegionAlgebraLaws}.

Lemma new_metainfo_ok (file st : store_t) :
  Store.new file true = Ok st ->
  sb_metainfo st = [(serialize universe, [])]
  /\ Store.get_metainfo_internal st = Ok [(universe, [])].
Proof.
  unfold Store.new; simpl. intros E; inversion E; subst; clear E.
  split; [reflexivity|].
  unfold Store.get_metainfo_internal, get_superblock_metainfo,
    set_superblock_metainfo, put; simpl.
  rewrite vector_read_stream_prepend, roundtrip by exact I. simpl.
  now rewrite get_domain_universe, key_range_eqb_refl.
Qed.

(** [update_metainfo] on a map that was read from the superblock, with a new
    map whose domain lies within [universe]. *)
Lemma update_metainfo_total (old new : metainfo_t) (st : store_t) :
  get_domain old = universe ->
  region_is_superset universe (get_domain new) = true ->
  exists st',
    Store.update_metainfo old new st = Ok st'
    /\ btree st' = btree st
    /\ Store.get_metainfo_internal st' = Ok (update old new)
    /\ get_domain (update old new) = universe.
Proof.
  intros Hold Hnew.
  assert (Hd : get_domain (update old new) = universe).
  { rewrite get_domain_update; [exact Hold | now rewrite Hold]. }
  destruct (persist_then_read _ st Hd) as (st' & Hw & _ & Hb & Hr).
  exists st'. repeat split; auto.
  unfold Store.update_metainfo. now rewrite Hd, key_range_eqb_refl.
Qed.

(** C1. The domain of the metainfo is [universe] at every point
    between operations.  A store constructed with [create] holds the
    single pair of [universe] and the empty blob.  [update_metainfo],
    given an old map of domain [universe] and a new one whose domain
    lies within [universe], persists a map that reads back with domain
    [universe]; so do its three callers, [set_metainfo], [reset_data] and
    (for [write]) [check_and_update_metainfo], on a store whose metainfo
    has domain [universe].  Hence every state a store reaches by [write],
    [set_metainfo], [reset_data] and [receive_backfill] reads back with
    domain [universe]. *)
Theorem metainfo_domain_invariant :
  (forall file : store_t,
      exists st,
        Store.new file true = Ok st
        /\ sb_metainfo st = [(serialize universe, [])]
        /\ Store.get_metainfo_internal st = Ok [(universe, [])]
        /\ get_domain (V := binary_blob_t) [(universe, [])] = universe)
  /\ (forall (old new : metainfo_t) (st : store_t),
      get_domain old = universe ->
      region_is_superset universe (get_domain new) = true ->
      exists st' m,
        Store.update_metainfo old new st = Ok st'
        /\ Store.get_metainfo_internal st' = Ok m
        /\ m = update old new
        /\ get_domain m = universe)
  /\ (forall (new : metainfo_t) (st : store_t),
      Store.metainfo_ok st ->
      region_is_superset universe (get_domain new) = true ->
      (exists st', Store.set_metainfo new st = Ok st' /\ Store.metainfo_ok st')
      /\ (forall sub,
            exists st', Store.reset_data sub new st = Ok st' /\ Store.metainfo_ok st')
      /\ (forall expected old,
            Store.check_metainfo expected st = Ok old ->
            exists st',
              Store.check_and_update_metainfo expected new st = Ok st'
              /\ Store.metainfo_ok st'))
  /\ (forall st : store_t,
      Store.reachable st ->
      exists m,
        Store.get_metainfo_internal st = Ok m /\ get_domain m = universe).
Proof.
  split; [|split; [|split]].
  - intros file. eexists. split; [reflexivity|].
    destruct (new_metainfo_ok file _ eq_refl) as [Hp Hr].
    repeat split; auto. apply get_domain_universe.
  - intros old new st Hold Hnew.
    destruct (update_metainfo_total old new st Hold Hnew) as (st' & Hu & _ & Hr & Hd).
    exists st', (update old new). auto.
  - intros new st (old & Hr & Hold) Hnew. split; [|split].
    + destruct (update_metainfo_total old new st Hold Hnew) as (st' & Hu & _ & Hr' & Hd).
      exists st'. split.
      * unfold Store.set_metainfo. now rewrite Hr.
      * now exists (update old new).
    + intros sub.
      destruct (update_metainfo_total old new st Hold Hnew) as (st' & Hu & _ & Hr' & Hd).
      eexists. split.
      * unfold Store.reset_data. rewrite Hr; simpl. rewrite Hu; simpl. reflexivity.
      * exists (update old new). split; [|exact Hd].
        erewrite get_metainfo_internal_pairs; [exact Hr' | reflexivity].
    + intros expected old' Hc.
      assert (old' = old) as ->.
      { unfold Store.check_metainfo in Hc. rewrite Hr in Hc; simpl in Hc.
        unfold rassert in Hc. destruct (region_map_eqb _ _ _); simpl in Hc;
          congruence. }
      destruct (update_metainfo_total old new st Hold Hnew) as (st' & Hu & _ & Hr' & Hd).
      exists st'. split.
      * unfold Store.check_and_update_metainfo. now rewrite Hc.
      * now exists (update old new).
  - induction 1 as [file st Hn | st st' _ IH Hs].
    + apply new_metainfo_ok in Hn as [_ Hr].
      eexists. split; [exact Hr|]. apply get_domain_universe.
    + eapply step_metainfo_ok; eauto.
Qed.
End WithRegionLaws.
End WithRoundtrip.
End Metainfo.

(** ** Checking the metainfo; backfill *)

Section Operations.
Context {RA : RegionAlgebra} {BL : BtreeLayer} {Sk : Serializable key_range_t}.

Lemma check_metainfo_spec (expected current : metainfo_t) (st : store_t) :
  Store.get_metainfo_internal st = Ok current ->
  Store.check_metainfo expected st
  = if region_map_eqb binary_blob_eqb
         (mask current (get_domain expected)) expected
    then Ok current
    else Fault MetainfoMismatch.
Proof.
  intros Hc. unfold Store.check_metainfo. rewrite Hc; simpl.
  now destruct (region_map_eqb _ _ _).
Qed.

(** C4. Unsharding a [Get] read or a write from a vector of responses
    whose length is not exactly 1 fails with DomainViolation; from exactly
    one response it returns that response unchanged: a write whatever the
    response is, and a [Get] read for every response a store returns to a
    [Get], which is the [get_result_t] of its B-tree lookup. *)
Theorem unshard_single_response :
  (forall (g : get_query_t) (et : exptime_t) (responses : list read_response_t),
      length responses <> 1%nat ->
      Read.unshard (mk_read (Get g) et) responses = Fault DomainViolation)
  /\ (forall (g g' : get_query_t) (et et' : exptime_t) (expected : metainfo_t)
             (st : store_t) (response : read_response_t),
      Store.read expected (mk_read (Get g') et') st = Ok response ->
      Read.unshard (mk_read (Get g) et) [response] = Ok response)
  /\ (forall (g g' : get_query_t) (et et' : exptime_t) (st : store_t),
      Read.unshard (mk_read (Get g) et) [Store.read_visitor (Get g') et' st]
      = Ok (Store.read_visitor (Get g') et' st))
  /\ (forall (g : get_query_t) (et : exptime_t) (r : get_result_t),
      Read.unshard (mk_read (Get g) et) [get_result r] = Ok (get_result r))
  /\ (forall (R : Type) (w : write_t) (responses : list R),
      length responses <> 1%nat ->
      Write.unshard w responses = Fault DomainViolation)
  /\ (forall (R : Type) (w : write_t) (r : R),
      Write.unshard w [r] = Ok r).
Proof.
  split; [|split; [|split; [|split; [|split]]]].
  - intros g et responses Hl. unfold Read.unshard; simpl.
    now rewrite (length_not_1 _ Hl).
  - intros g g' et et' expected st response. unfold Store.read.
    destruct (Store.check_metainfo expected st) as [old|f]; simpl;
      [|discriminate].
    intros E; inversion E; subst. reflexivity.
  - reflexivity.
  - reflexivity.
  - intros R w responses Hl. unfold Write.unshard.
    now rewrite (length_not_1 _ Hl).
  - reflexivity.
Qed.

Lemma backfill_pieces_spec (pieces : region_map_t state_timestamp_t)
    (chunks : list backfill_chunk_t) (progress : backfill_progress_t)
    (st : store_t) :
  Store.backfill_pieces pieces chunks progress st
  = (chunks ++ flat_map (fun p => Store.piece_chunks st p) pieces,
     progress ++ map (fun p => Store.piece_progress st p) pieces).
Proof.
  revert chunks progress.
  induction pieces as [|[range ts] pieces IH]; intros chunks progress; simpl.
  - now rewrite !app_nil_r.
  - unfold Store.piece_chunks at 1, Store.piece_progress at 1; simpl.
    destruct (memcached_backfill _ _ _) as [events p]; simpl.
    rewrite IH. now rewrite <- !app_assoc.
Qed.

(** C7. With the metainfo on the superblock read as [current],
    [send_backfill] hands [should_backfill] that metainfo masked to the
    domain of [start_point].  When the answer is false it returns false
    and no chunk reaches [chunk_fun] (nor is any progress registered);
    when it is true it traverses every piece of [start_point], in order,
    from the piece's timestamp converted to a replication timestamp,
    registers one constituent of progress per piece, and returns true. *)
Theorem send_backfill_spec
    (start_point : region_map_t state_timestamp_t)
    (should_backfill : metainfo_t -> bool) (progress : backfill_progress_t)
    (current : metainfo_t) (st : store_t) :
  Store.get_metainfo_internal st = Ok current ->
  let metainfo := mask current (get_domain start_point) in
  (should_backfill metainfo = false ->
     Store.send_backfill start_point should_backfill progress st
     = Ok (false, [], progress))
  /\ (should_backfill metainfo = true ->
     exists chunks constituents,
       Store.send_backfill start_point should_backfill progress st
       = Ok (true, chunks, progress ++ constituents)
       /\ chunks
          = flat_map
              (fun p =>
                 map Store.memcached_backfill_callback
                   (fst (memcached_backfill (btree st) (fst p)
                           (state_to_repli_timestamp (snd p)))))
              start_point
       /\ constituents
          = map (fun p =>
                   snd (memcached_backfill (btree st) (fst p)
                          (state_to_repli_timestamp (snd p))))
              start_point
       /\ length constituents = length start_point).
Proof.
  intros Hc metainfo. unfold Store.send_backfill. rewrite Hc; simpl.
  fold metainfo. split; intros Hs; rewrite Hs; [reflexivity|].
  rewrite backfill_pieces_spec; simpl.
  do 2 eexists. split; [reflexivity|].
  repeat split. now rewrite length_map.
Qed.
End Operations.

(** ** Further properties: iterators *)

Lemma fold_push_back {T} (xs : list T) (it : vector_backed_one_way_iterator_t T) :
  fold_left push_back xs it = mk_vector_backed (data it ++ xs) (pos it).
Proof.
  revert it. induction xs as [|x xs IH]; intros it; simpl.
  - rewrite app_nil_r. now destruct it.
  - rewrite IH. simpl. now rewrite <- app_assoc.
Qed.

(** X1. A vector-backed iterator is first in, first out: a new iterator
    onto which [xs] was pushed, one [push_back] after the other, yields
    exactly [xs], in the order pushed, and then nothing. *)
Theorem push_back_then_next_is_fifo {T} (xs : list T) :
  drains (fold_left push_back xs vector_backed_new) xs
    (mk_vector_backed xs (length xs)).
Proof.
  rewrite fold_push_back. simpl.
  apply (vector_backed_drains xs 0). lia.
Qed.

(** X2. Once a vector-backed iterator has yielded all it holds, [next]
    keeps answering that there is nothing and leaves the iterator as it is;
    an element pushed after that is the next one yielded: the position is
    kept, not reset. *)
Theorem exhausted_iterator_resumes {T} (it : vector_backed_one_way_iterator_t T) :
  (pos it <= length (data it))%nat ->
  let done := mk_vector_backed (data it) (length (data it)) in
  drains it (skipn (pos it) (data it)) done
  /\ next done = (None, done)
  /\ forall v : T,
       next (push_back done v)
       = (Some v, mk_vector_backed (data it ++ [v]) (S (length (data it))))
       /\ drains (push_back done v) [v]
            (mk_vector_backed (data it ++ [v]) (S (length (data it)))).
Proof.
  intros Hp done. split; [|split].
  - destruct it as [d p]. now apply vector_backed_drains.
  - unfold next, vector_backed_iterator, vector_backed_next, done; simpl.
    now rewrite Nat.ltb_irrefl.
  - intros v.
    assert (Hn : next (push_back done v)
                 = (Some v, mk_vector_backed (data it ++ [v]) (S (length (data it))))).
    { unfold next, vector_backed_iterator, vector_backed_next, push_back, done; simpl.
      rewrite length_app; simpl.
      replace (length (data it) <? length (data it) + 1)%nat with true
        by (symmetry; apply Nat.ltb_lt; lia).
      rewrite nth_error_app2, Nat.sub_diag by lia. reflexivity. }
    split; [exact Hn|].
    eapply drains_more; [exact Hn|]. apply drains_done.
    unfold next, vector_backed_iterator, vector_backed_next; simpl.
    rewrite length_app; simpl.
    replace (S (length (data it)) <? length (data it) + 1)%nat with false
      by (symmetry; apply Nat.ltb_ge; lia).
    reflexivity.
Qed.

Lemma drains_vector_backed_result
    (it it' : vector_backed_one_way_iterator_t key_with_data_buffer_t)
    (xs : list key_with_data_buffer_t) :
  drains it xs it' ->
  drains (vector_backed_result it) xs (vector_backed_result it').
Proof.
  induction 1 as [it it' Hn | it x it1 xs it' Hn Hd IH].
  - apply drains_done.
    unfold next, rget_result_iterator; simpl.
    unfold next, vector_backed_iterator in Hn. now rewrite Hn.
  - eapply drains_more; [|exact IH].
    unfold next, rget_result_iterator; simpl.
    unfold next, vector_backed_iterator in Hn. now rewrite Hn.
Qed.

(** ** Further properties: the data-buffer codec *)

Section DataBufferMore.
Context {Sb : Serializable bool} {Sz : Serializable Z}.

Lemma code_nonzero (e : archive_error) : code e <> 0.
Proof. destruct e; discriminate. Qed.

Lemma force_read_enough (s : read_stream_t) (n : Z) :
  0 <= n ->
  (Z.to_nat n <= length (pending s))%nat ->
  force_read s n
  = (n, firstn (Z.to_nat n) (pending s),
     mk_stream (skipn (Z.to_nat n) (pending s)) (fails_at_end s)).
Proof.
  intros Hn Hl. unfold force_read.
  replace (Z.to_nat n <=? length (pending s))%nat with true
    by (symmetry; now apply Nat.leb_le).
  now rewrite Z2Nat.id.
Qed.

Lemma force_read_short (s : read_stream_t) (n : Z) :
  (length (pending s) < Z.to_nat n)%nat ->
  force_read s n
  = if fails_at_end s then (-1, pending s, mk_stream [] true)
    else (Z.of_nat (length (pending s)), pending s, mk_stream [] false).
Proof.
  intros Hl. unfold force_read.
  replace (Z.to_nat n <=? length (pending s))%nat with false
    by (symmetry; apply Nat.leb_gt; lia).
  reflexivity.
Qed.

(** X3. When [deserialize] of a data buffer returns 0, either the flag read
    was false, nothing else was read and [*buf] is as it was, or the flag
    was true, the size read was not negative, and [*buf] holds a buffer of
    exactly that size: the bytes that followed the size on the stream, which
    is left right behind them.  It never returns 0 with a shorter buffer. *)
Theorem deserialize_data_buffer_success
    (s s' : read_stream_t) (dst buf' : data_buffer_ptr) :
  deserialize_data_buffer s dst = (0, buf', s') ->
  (exists s1,
      deserialize (T := bool) s = Decoded false s1 /\ buf' = dst /\ s' = s1)
  \/ (exists s1 n s2 b,
      deserialize (T := bool) s = Decoded true s1
      /\ deserialize (T := Z) s1 = Decoded n s2
      /\ 0 <= n
      /\ buf' = Some b
      /\ Z.of_nat (size b) = n
      /\ pending s2 = b ++ pending s'
      /\ fails_at_end s' = fails_at_end s2).
Proof.
  unfold deserialize_data_buffer.
  destruct (deserialize (T := bool) s) as [flag s1|e s1] eqn:Hb;
    [destruct flag|].
  - destruct (deserialize (T := Z) s1) as [n s2|e s2] eqn:Hz.
    + destruct (n <? 0) eqn:Hneg; [intros E; inversion E|].
      apply Z.ltb_ge in Hneg.
      destruct (Nat.le_gt_cases (Z.to_nat n) (length (pending s2))) as [Hl|Hl].
      * rewrite force_read_enough by assumption.
        replace (n =? -1) with false by (symmetry; apply Z.eqb_neq; lia).
        rewrite Z.ltb_irrefl. intros E; inversion E; subst; clear E.
        right. exists s1, n, s2, (firstn (Z.to_nat n) (pending s2)).
        assert (Hlen : length (firstn (Z.to_nat n) (pending s2)) = Z.to_nat n)
          by (rewrite length_firstn; lia).
        repeat split; auto.
        -- f_equal. unfold fill, data_buffer_create.
           rewrite skipn_all2 by (rewrite repeat_length; lia).
           apply app_nil_r.
        -- unfold size. rewrite Hlen. lia.
        -- simpl. now rewrite firstn_skipn.
      * rewrite force_read_short by assumption.
        destruct (fails_at_end s2); simpl; [intros E; inversion E|].
        replace (Z.of_nat (length (pending s2)) =? -1) with false
          by (symmetry; apply Z.eqb_neq; lia).
        replace (Z.of_nat (length (pending s2)) <? n) with true
          by (symmetry; apply Z.ltb_lt; lia).
        intros E; inversion E.
    + intros E; inversion E. now destruct (code_nonzero e).
  - intros E; inversion E; subst. left. eexists. eauto.
  - intros E; inversion E. now destruct (code_nonzero e).
Qed.

Section WithLaws.
Context {Rb : Roundtrip bool (fun _ => True)} {Rz : Roundtrip Z in_int64}.

(** X4. A negative size on the stream is refused: after a true flag and
    any negative [int64_t], [deserialize] returns -3, and [*buf] is as it
    was. *)
Theorem deserialize_data_buffer_negative_size
    (n : Z) (dst : data_buffer_ptr) (rest : read_stream_t) :
  in_int64 n ->
  n < 0 ->
  deserialize_data_buffer (prepend (serialize true ++ serialize n) rest) dst
  = (-3, dst, rest).
Proof.
  intros Hin Hneg. unfold deserialize_data_buffer.
  rewrite prepend_app, (roundtrip (T := bool)) by exact I.
  rewrite (roundtrip (T := Z)) by exact Hin.
  now replace (n <? 0) with true by (symmetry; now apply Z.ltb_lt).
Qed.

(** X5. A payload cut short is an error: when the stream ends with fewer
    bytes than the size announced, [deserialize] returns -2 at an end of
    file and -1 on a transport that fails; by then [*buf] has been replaced
    by a buffer of the announced size that starts with the bytes that did
    arrive. *)
Theorem deserialize_data_buffer_truncated
    (n : Z) (got : list byte) (fails : bool) (dst : data_buffer_ptr) :
  in_int64 n ->
  Z.of_nat (length got) < n ->
  exists b,
    deserialize_data_buffer
      (mk_stream (serialize true ++ serialize n ++ got) fails) dst
    = ((if fails then -1 else -2), Some b, mk_stream [] fails)
    /\ Z.of_nat (size b) = n
    /\ firstn (length got) b = got.
Proof.
  intros Hin Hshort.
  assert (Hs : mk_stream (serialize true ++ serialize n ++ got) fails
               = prepend (serialize true ++ serialize n) (mk_stream got fails)).
  { unfold prepend; simpl. now rewrite <- app_assoc. }
  rewrite Hs. unfold deserialize_data_buffer.
  rewrite prepend_app, (roundtrip (T := bool)) by exact I.
  rewrite (roundtrip (T := Z)) by exact Hin.
  replace (n <? 0) with false by (symmetry; apply Z.ltb_ge; lia).
  rewrite force_read_short by (simpl; lia). simpl.
  exists (fill (data_buffer_create n) got).
  assert (Hsize : Z.of_nat (size (fill (data_buffer_create n) got)) = n).
  { unfold size, fill, data_buffer_create.
    rewrite length_app, length_skipn, repeat_length. lia. }
  assert (Hfirst : firstn (length got) (fill (data_buffer_create n) got) = got).
  { unfold fill. rewrite firstn_app, Nat.sub_diag, firstn_all; simpl.
    apply app_nil_r. }
  destruct fails; simpl.
  - repeat split; auto.
  - replace (Z.of_nat (length got) =? -1) with false
      by (symmetry; apply Z.eqb_neq; lia).
    replace (Z.of_nat (length got) <? n) with true
      by (symmetry; now apply Z.ltb_lt).
    repeat split; auto.
Qed.

(** X6. No two buffer references are written alike: when what
    [operator<<] writes for two references (of sizes an [int64_t] can hold)
    is the same, the references are equal.  In particular a null reference
    and an empty buffer are told apart. *)
Theorem serialize_data_buffer_injective (a b : data_buffer_ptr) :
  buffer_fits a ->
  buffer_fits b ->
  serialize_data_buffer [] a = serialize_data_buffer [] b ->
  a = b.
Proof.
  intros Ha Hb E.
  pose proof (deserialize_data_buffer_fresh a (vector_read_stream_t []) Ha) as Da.
  pose proof (deserialize_data_buffer_fresh b (vector_read_stream_t []) Hb) as Db.
  rewrite E in Da. rewrite Da in Db. now inversion Db.
Qed.
End WithLaws.
End DataBufferMore.

(** ** Further properties: the codec of range-read results *)

Section RgetMore.
Context {Sb : Serializable bool} {Sz : Serializable Z} {Ss : Serializable string}.

Lemma serialize_rget_result_prefix
    {I : Type} {It : one_way_iterator_t I key_with_data_buffer_t} (fuel : nat) :
  forall (msg : write_message_t) (it : I),
    serialize_rget_result fuel msg it
    = match serialize_rget_result fuel [] it with
      | Some (m, it') => Some (msg ++ m, it')
      | None => None
      end.
Proof.
  induction fuel as [|fuel IH]; intros msg it; simpl; [reflexivity|].
  destruct (next it) as [[kv|] it1].
  - rewrite IH, (IH (serialize_element [] kv)), serialize_element_app.
    destruct (serialize_rget_result fuel [] it1) as [[m it']|]; [|reflexivity].
    simpl. now rewrite <- app_assoc.
  - reflexivity.
Qed.

(** X7. [operator<<] only appends.  What it writes for a data buffer or for
    a range-read result does not depend on what the message already holds,
    and what the message already holds stays in front, unchanged. *)
Theorem operator_shift_appends :
  (forall (msg : write_message_t) (buf : data_buffer_ptr),
      serialize_data_buffer msg buf = msg ++ serialize_data_buffer [] buf)
  /\ (forall (I : Type) (It : one_way_iterator_t I key_with_data_buffer_t)
             (fuel : nat) (msg : write_message_t) (it : I),
      serialize_rget_result fuel msg it
      = match serialize_rget_result fuel [] it with
        | Some (m, it') => Some (msg ++ m, it')
        | None => None
        end).
Proof.
  split.
  - apply serialize_data_buffer_app.
  - intros I It fuel. apply serialize_rget_result_prefix.
Qed.

(** X8. Serialising a vector-backed result always comes to an end: with
    as many turns as it has elements left, and one more, [operator<<] writes
    the frames of the elements from its position on and the terminator, and
    leaves it exhausted. *)
Theorem serialize_vector_backed_result
    (it : vector_backed_one_way_iterator_t key_with_data_buffer_t)
    (msg : write_message_t) :
  (pos it <= length (data it))%nat ->
  serialize_rget_result (S (length (data it) - pos it)) msg
    (vector_backed_result it)
  = Some (msg ++ flat_map frame (skipn (pos it) (data it)) ++ serialize false,
          vector_backed_result (mk_vector_backed (data it) (length (data it)))).
Proof.
  intros Hp. destruct it as [d p]; cbn [data pos] in *.
  apply serialize_rget_result_drains.
  - apply drains_vector_backed_result. now apply vector_backed_drains.
  - rewrite length_skipn. lia.
Qed.

Section WithLaws.
Context {Rb : Roundtrip bool (fun _ => True)} {Rz : Roundtrip Z in_int64}.
Context {key_ok : string -> Prop} {Rs : Roundtrip string key_ok}.

Lemma deserialize_rget_loop_cut (xs : list key_with_data_buffer_t) :
  Forall (element_ok key_ok) xs ->
  forall (fuel : nat) (s0 s1 : read_stream_t) (e : archive_error),
    deserialize (T := bool) s0 = Failed e s1 ->
    (length xs < fuel)%nat ->
    deserialize_rget_loop fuel (prepend (flat_map frame xs) s0)
    = Some (code e, s1).
Proof.
  induction 1 as [|kv xs [Hk Hb] _ IH]; intros fuel s0 s1 e He Hf.
  - destruct fuel as [|fuel]; [simpl in Hf; lia|].
    simpl. rewrite prepend_nil, He. reflexivity.
  - destruct fuel as [|fuel]; [simpl in Hf; lia|].
    cbn [flat_map deserialize_rget_loop].
    rewrite frame_unfold, <- !app_assoc, !prepend_app.
    rewrite (roundtrip (T := bool)) by exact I. cbn [negb].
    rewrite (roundtrip (T := string)) by exact Hk.
    rewrite deserialize_data_buffer_fresh by exact Hb.
    eapply IH; eauto. simpl in Hf; lia.
Qed.

(** X9. A stream that breaks off where the next flag should be: after the
    frames of any elements, when the decoder of the flag fails, the
    deserialiser of a range-read result stops and returns that decoder's
    result, which is not 0; the elements read so far are not handed out. *)
Theorem deserialize_rget_result_cut
    (xs : list key_with_data_buffer_t) (fuel : nat)
    (s0 s1 : read_stream_t) (e : archive_error) :
  Forall (element_ok key_ok) xs ->
  deserialize (T := bool) s0 = Failed e s1 ->
  (length xs < fuel)%nat ->
  deserialize_rget_result fuel (prepend (flat_map frame xs) s0)
  = Some (code e, vector_backed_result vector_backed_new, s1)
  /\ code e <> 0.
Proof.
  intros Hok He Hf. split.
  - unfold deserialize_rget_result.
    now rewrite (deserialize_rget_loop_cut xs Hok fuel s0 s1 e He Hf).
  - apply code_nonzero.
Qed.

(** X10. Writing a range-read result and reading it back loses it: what
    [operator<<] wrote for an iterator that yields [xs] is read back with
    result 0, up to the end of what was written, as a result that yields
    nothing; written again, that result is the terminator alone. *)
Theorem rget_result_write_read_write
    {I : Type} {It : one_way_iterator_t I key_with_data_buffer_t}
    (it it' : I) (xs : list key_with_data_buffer_t) (fuel : nat)
    (rest : read_stream_t) :
  drains it xs it' ->
  Forall (element_ok key_ok) xs ->
  (length xs < fuel)%nat ->
  exists msg back,
    serialize_rget_result fuel [] it = Some (msg, it')
    /\ deserialize_rget_result fuel (prepend msg rest) = Some (0, back, rest)
    /\ drains back [] back
    /\ serialize_rget_result fuel [] back = Some (serialize false, back).
Proof.
  intros Hd Hok Hf.
  exists (flat_map frame xs ++ serialize false),
         (vector_backed_result vector_backed_new).
  split; [|split; [|split]].
  - now rewrite (serialize_rget_result_drains it it' xs Hd fuel [] Hf).
  - unfold deserialize_rget_result.
    now rewrite deserialize_rget_loop_frames.
  - apply drains_done. reflexivity.
  - destruct fuel as [|fuel]; [lia|]. reflexivity.
Qed.
End WithLaws.

Section Termination.
Context {Cb : Consumes bool 1} {Cz : Consumes Z 0} {Cs : Consumes string 0}.

Lemma force_read_pending (s : read_stream_t) (n : Z) :
  (length (pending (snd (force_read s n))) <= length (pending s))%nat.
Proof.
  unfold force_read.
  destruct (Z.to_nat n <=? length (pending s))%nat; simpl.
  - rewrite length_skipn. lia.
  - destruct (fails_at_end s); simpl; lia.
Qed.

Lemma deserialize_data_buffer_pending (s : read_stream_t) (dst : data_buffer_ptr) :
  fst (fst (deserialize_data_buffer s dst)) = 0 ->
  (length (pending (snd (deserialize_data_buffer s dst))) + 1
   <= length (pending s))%nat.
Proof.
  unfold deserialize_data_buffer.
  destruct (deserialize (T := bool) s) as [flag s1|e s1] eqn:Hb.
  2:{ simpl. intros E. now destruct (code_nonzero e). }
  apply consumes in Hb.
  destruct flag; [|simpl; intros _; lia].
  destruct (deserialize (T := Z) s1) as [n s2|e s2] eqn:Hz.
  2:{ simpl. intros E. now destruct (code_nonzero e). }
  apply consumes in Hz.
  destruct (n <? 0); [simpl; discriminate|].
  pose proof (force_read_pending s2 n) as Hr.
  destruct (force_read s2 n) as [[num_read got] s3]; simpl in Hr.
  destruct (num_read =? -1); [simpl; discriminate|].
  destruct (num_read <? n); [simpl; discriminate|].
  simpl. intros _. lia.
Qed.

Lemma deserialize_rget_loop_total (fuel : nat) :
  forall s : read_stream_t,
    (length (pending s) < fuel)%nat ->
    exists res s', deserialize_rget_loop fuel s = Some (res, s').
Proof.
  induction fuel as [|fuel IH]; intros s Hf; [lia|].
  simpl.
  destruct (deserialize (T := bool) s) as [flag s1|e s1] eqn:Hb; [|eauto].
  apply consumes in Hb.
  destruct flag; simpl; [|eauto].
  destruct (deserialize (T := string) s1) as [k s2|e s2] eqn:Hs; [|eauto].
  apply consumes in Hs.
  pose proof (deserialize_data_buffer_pending s2 None) as Hd.
  destruct (deserialize_data_buffer s2 None) as [[res d] s3]; simpl in Hd.
  destruct res as [|p|p]; eauto.
  apply IH. specialize (Hd eq_refl). lia.
Qed.

(** X11. The loop of the deserialiser of a range-read result comes to an
    end on every stream, well-framed or not: as long as the decoders it
    calls take their bytes from the stream (the one of the flag at least
    one), as many turns as there are bytes pending, and one more, are
    enough for it to return. *)
Theorem deserialize_rget_result_returns (s : read_stream_t) :
  exists res s',
    deserialize_rget_result (S (length (pending s))) s
    = Some (res, vector_backed_result vector_backed_new, s').
Proof.
  destruct (deserialize_rget_loop_total (S (length (pending s))) s) as (res & s' & E);
    [lia|].
  exists res, s'. unfold deserialize_rget_result. now rewrite E.
Qed.
End Termination.
End RgetMore.

(** ** Further properties: the request algebra *)

Section RequestAlgebraMore.
Context {RA : RegionAlgebra}.

Lemma key_range_eqb_neq (a b : key_range_t) :
  key_range_eqb a b = false <-> a <> b.
Proof.
  rewrite <- key_range_eqb_eq. destruct (key_range_eqb a b); split;
    congruence.
Qed.

(** X12. [write_t::shard] hands back the write itself, and only for the
    write's own region: for any other region it fails the precondition.  So
    whatever it returns has the region that was asked for. *)
Theorem write_shard_spec (w : write_t) (region : key_range_t) :
  (region = Write.get_region w -> Write.shard w region = Ok w)
  /\ (region <> Write.get_region w ->
      Write.shard w region = Fault PreconditionViolated)
  /\ (forall w',
        Write.shard w region = Ok w' ->
        w' = w /\ Write.get_region w' = region).
Proof.
  unfold Write.shard. split; [|split].
  - intros ->. now rewrite key_range_eqb_refl.
  - intros Hne. apply key_range_eqb_neq in Hne. now rewrite Hne.
  - intros w'. destruct (key_range_eqb region (Write.get_region w)) eqn:E;
      simpl; [|discriminate].
    apply key_range_eqb_eq in E. intros Hw; inversion Hw; subst. auto.
Qed.

(** X13. [write_t::unshard] returns a response exactly when it is given
    one response, and then returns that one; given none, or more than one,
    it fails, whatever the write and whatever the type of the responses. *)
Theorem write_unshard_spec {R : Type} (w : write_t) (responses : list R) :
  (forall r, Write.unshard w responses = Ok r <-> responses = [r])
  /\ (length responses <> 1%nat <->
      Write.unshard w responses = Fault DomainViolation).
Proof.
  unfold Write.unshard.
  destruct responses as [|r0 [|r1 responses]]; simpl; split;
    try (intros r; split; [discriminate|discriminate]).
  - split; [reflexivity|intros _; lia].
  - intros r. split; intros E; inversion E; reflexivity.
  - split; [intros E; now destruct E|discriminate].
  - split; [reflexivity|intros _; lia].
Qed.

(** X14. [read_t::shard] fails in one way only, the precondition: for a
    [Get] exactly when the region is not the read's point region, for an
    [Rget] exactly when the read's region is not a superset of it.  When it
    returns, the read returned is of the same kind and has the same
    effective time, and a [Get] is returned as it is. *)
Theorem read_shard_failure (r : read_t) (sub : key_range_t) :
  (forall f, Read.shard r sub = Fault f -> f = PreconditionViolated)
  /\ (Read.shard r sub = Fault PreconditionViolated <->
      match query r with
      | Get _ => sub <> Read.get_region r
      | Rget _ => region_is_superset (Read.get_region r) sub = false
      end)
  /\ (forall r',
        Read.shard r sub = Ok r' ->
        read_effective_time r' = read_effective_time r
        /\ match query r, query r' with
           | Get g, Get g' => g' = g
           | Rget _, Rget _ => True
           | _, _ => False
           end).
Proof.
  destruct r as [[g|q] et]; unfold Read.shard, Read.get_region; simpl.
  - destruct (key_range_eqb sub _) eqn:E; simpl.
    + apply key_range_eqb_eq in E. split; [|split].
      * intros f Hf; discriminate.
      * split; [discriminate|]. intros Hne. exfalso. now apply Hne.
      * intros r1 Hr; inversion Hr; subst; simpl. split; reflexivity.
    + apply key_range_eqb_neq in E. split; [|split].
      * intros f Hf; inversion Hf; reflexivity.
      * split; auto.
      * intros r1 Hr; discriminate.
  - destruct (region_is_superset _ sub) eqn:E; simpl.
    + split; [|split].
      * intros f Hf; discriminate.
      * split; discriminate.
      * intros r1 Hr. destruct (unbounded (right sub)); inversion Hr; subst;
          simpl; split; auto.
    + split; [|split].
      * intros f Hf; inversion Hf; reflexivity.
      * split; auto.
      * intros r1 Hr; discriminate.
Qed.
End RequestAlgebraMore.

Lemma add_mergees_rget (its merged : list rget_result_t) :
  Read.add_mergees (map rget_result its) merged = Ok (merged ++ its).
Proof.
  revert merged. induction its as [|it its IH]; intros merged; simpl.
  - now rewrite app_nil_r.
  - rewrite IH. now rewrite <- app_assoc.
Qed.

Lemma add_mergees_get (responses : list read_response_t) (g : get_result_t) :
  In (get_result g) responses ->
  forall merged, Read.add_mergees responses merged = Fault BadGet.
Proof.
  induction responses as [|b responses IH]; intros Hin merged; [contradiction|].
  destruct Hin as [->|Hin]; [reflexivity|].
  simpl. destruct b as [g'|it]; simpl; [reflexivity|]. now apply IH.
Qed.

(** X15. Unsharding an [Rget] takes any number of responses, none
    included: when all hold range results, it returns the ordered merge
    over their iterators, all of them and in the order of the responses;
    when one of them holds a get result, the typed access to it throws. *)
Theorem unshard_rget (q : rget_query_t) (et : exptime_t) :
  (forall its : list rget_result_t,
      Read.unshard (mk_read (Rget q) et) (map rget_result its)
      = Ok (rget_result (merged_results its)))
  /\ (forall (responses : list read_response_t) (g : get_result_t),
      In (get_result g) responses ->
      Read.unshard (mk_read (Rget q) et) responses = Fault BadGet).
Proof.
  split.
  - intros its. unfold Read.unshard; simpl. now rewrite add_mergees_rget.
  - intros responses g Hin. unfold Read.unshard; simpl.
    now rewrite (add_mergees_get responses g Hin).
Qed.

(** ** Further properties: the store *)

Section StoreMore.
Context {RA : RegionAlgebra} {BL : BtreeLayer} {Sk : Serializable key_range_t}.

(** X16. A [Get] through the sharding layer is the [Get] itself: sharding
    the read to its own region, reading the shard from the store and
    unsharding the one response gives what reading from the store gives,
    the failures included. *)
Theorem get_shard_read_unshard
    (g : get_query_t) (et : exptime_t) (expected : metainfo_t) (st : store_t) :
  let r := mk_read (Get g) et in
  bind (Read.shard r (Read.get_region r))
    (fun r' => bind (Store.read expected r' st)
                 (fun rsp => Read.unshard r [rsp]))
  = Store.read expected r st.
Proof.
  intros r. unfold Read.shard, Read.get_region; simpl.
  rewrite key_range_eqb_refl; simpl.
  unfold Store.read. destruct (Store.check_metainfo expected st); reflexivity.
Qed.

(** X17. A write through the sharding layer is the write itself: sharding
    it to its own region, applying the shard to the store and unsharding
    the one response gives the response and the store that applying the
    write gives, the failures included. *)
Theorem write_shard_write_unshard
    (w : write_t) (expected new : metainfo_t) (ts : transition_timestamp_t)
    (st : store_t) :
  bind (Write.shard w (Write.get_region w))
    (fun w' => bind (Store.write expected new w' ts st)
                 (fun out => bind (Write.unshard w [fst out])
                               (fun rsp => Ok (rsp, snd out))))
  = Store.write expected new w ts st.
Proof.
  unfold Write.shard. rewrite key_range_eqb_refl; simpl.
  destruct (Store.write expected new w ts st) as [[rsp st']|f]; reflexivity.
Qed.

Lemma read_pairs_decoded (pairs : list (list byte * list byte))
    (regions : list key_range_t) :
  map (fun p => decode_key (fst p)) pairs = map Some regions ->
  forall acc,
    Store.read_pairs pairs acc = Ok (acc ++ combine regions (map snd pairs)).
Proof.
  revert regions. induction pairs as [|[k v] pairs IH]; intros [|r regions] E acc;
    simpl in *; try discriminate.
  - now rewrite app_nil_r.
  - inversion E as [[Hk Hrest]]. unfold decode_key in Hk.
    destruct (deserialize (vector_read_stream_t k)) as [r' s|e s];
      [|discriminate].
    inversion Hk; subst. rewrite (IH regions Hrest). now rewrite <- app_assoc.
Qed.

Lemma read_pairs_undecoded (pairs : list (list byte * list byte)) :
  (exists p, In p pairs /\ decode_key (fst p) = None) ->
  forall acc, Store.read_pairs pairs acc = Fault DecodeError.
Proof.
  induction pairs as [|[k v] pairs IH]; intros (p & Hin & Hp) acc;
    [contradiction|].
  simpl. unfold decode_key in *.
  destruct (deserialize (vector_read_stream_t k)) as [r s|e s] eqn:Hk;
    [|reflexivity].
  apply IH. destruct Hin as [<-|Hin]; [|eauto].
  simpl in Hp. rewrite Hk in Hp. discriminate.
Qed.

(** X18. How reading the metainfo fails.  When one of the pairs on the
    superblock has a key that does not read back as a region, it fails with
    DecodeError; when all do, the map read is the regions, in the order of
    the pairs, each with the value of its pair, and it is returned if its
    domain is [universe] and refused with DomainViolation if not. *)
Theorem get_metainfo_internal_outcome (st : store_t) :
  ((exists p, In p (sb_metainfo st) /\ decode_key (fst p) = None) ->
   Store.get_metainfo_internal st = Fault DecodeError)
  /\ (forall regions : list key_range_t,
        map (fun p => decode_key (fst p)) (sb_metainfo st) = map Some regions ->
        let m : metainfo_t := combine regions (map snd (sb_metainfo st)) in
        Store.get_metainfo_internal st
        = if key_range_eqb (get_domain m) universe then Ok m
          else Fault DomainViolation).
Proof.
  split.
  - intros Hbad. unfold Store.get_metainfo_internal, get_superblock_metainfo.
    now rewrite (read_pairs_undecoded _ Hbad).
  - intros regions Hdec m.
    unfold Store.get_metainfo_internal, get_superblock_metainfo.
    rewrite (read_pairs_decoded _ regions Hdec); simpl.
    fold m. now destruct (key_range_eqb (get_domain m) universe).
Qed.


Lemma update_metainfo_slice (old new : metainfo_t) (st st' : store_t) :
  Store.update_metainfo old new st = Ok st' ->
  st' = mk_store (map Store.persisted (update old new)) (btree st).
Proof.
  unfold Store.update_metainfo.
  destruct (key_range_eqb (get_domain (update old new)) universe);
    simpl; [|discriminate].
  rewrite write_pairs_spec. simpl. intros Hst; now inversion Hst.
Qed.

(** X20. [reset_data] is [set_metainfo] followed by the erasure of the
    subregion, with no key tester, from the slice as it was before the call:
    it fails as [set_metainfo] fails, and installing the metainfo changes
    nothing of the slice that is then erased. *)
Theorem reset_data_is_set_metainfo_then_erase
    (subregion : key_range_t) (new : metainfo_t) (st : store_t) :
  Store.reset_data subregion new st
  = match Store.set_metainfo new st with
    | Ok st1 =>
        Ok (mk_store (sb_metainfo st1)
              (memcached_erase_range_in (btree st) None subregion))
    | Fault f => Fault f
    end.
Proof.
  unfold Store.reset_data, Store.set_metainfo.
  destruct (Store.get_metainfo_internal st) as [old|f]; simpl; [|reflexivity].
  destruct (Store.update_metainfo old new st) as [st1|f] eqn:Hu; simpl;
    [|reflexivity].
  now rewrite (update_metainfo_slice _ _ _ _ Hu).
Qed.

(** X21. Receiving a backfill never looks at the recency that was sent:
    the chunks of two deletions of a key, and of two key-value atoms, that
    differ in their recency only leave the same store, and so do two
    [delete_key] chunks however they were made. *)
Theorem receive_backfill_ignores_recency (st : store_t) :
  (forall (k : store_key_t) (r1 r2 : repli_timestamp_t),
      Store.receive_backfill
        (Store.memcached_backfill_callback (on_deletion k r1)) st
      = Store.receive_backfill
          (Store.memcached_backfill_callback (on_deletion k r2)) st)
  /\ (forall (k : store_key_t) (v : data_buffer_ptr) (flags : mcflags_t)
             (et : exptime_t) (cas : cas_t) (r1 r2 : repli_timestamp_t),
      Store.receive_backfill
        (Store.memcached_backfill_callback
           (on_keyvalue (mk_backfill_atom _ k v flags et r1 cas))) st
      = Store.receive_backfill
          (Store.memcached_backfill_callback
             (on_keyvalue (mk_backfill_atom _ k v flags et r2 cas))) st)
  /\ (forall (k : store_key_t) (r1 r2 : repli_timestamp_t),
      Store.receive_backfill (delete_key k r1) st
      = Store.receive_backfill (delete_key k r2) st).
Proof. repeat split. Qed.

Section WithRoundtrip.
Context {Rk : Roundtrip key_range_t (fun _ => True)}.

Lemma decode_key_trailing (r : key_range_t) (junk : list byte) :
  decode_key (serialize r ++ junk) = Some r.
Proof.
  unfold decode_key.
  replace (vector_read_stream_t (serialize r ++ junk))
    with (prepend (serialize r) (vector_read_stream_t junk)) by reflexivity.
  now rewrite (roundtrip r _ I).
Qed.

(** X22. Reading the metainfo decodes a region from the front of each key
    and never checks that the key ends there: bytes after the encoding of
    the region are ignored, and the store reads as the one without them. *)
Theorem get_metainfo_internal_ignores_trailing_bytes
    (pieces : list (key_range_t * binary_blob_t * list byte))
    (b : btree_slice_t) :
  Store.get_metainfo_internal
    (mk_store
       (map (fun x => (serialize (fst (fst x)) ++ snd x, snd (fst x))) pieces)
       b)
  = Store.get_metainfo_internal
      (mk_store (map Store.persisted (map fst pieces)) b).
Proof.
  unfold Store.get_metainfo_internal, get_superblock_metainfo; simpl.
  rewrite read_pairs_persisted; simpl.
  rewrite (read_pairs_decoded _ (map (fun x => fst (fst x)) pieces)).
  - simpl. replace (combine _ _) with (map fst pieces); [reflexivity|].
    induction pieces as [|[[r v] junk] pieces IH]; simpl; [reflexivity|].
    now rewrite <- IH.
  - induction pieces as [|[[r v] junk] pieces IH]; simpl; [reflexivity|].
    now rewrite decode_key_trailing, IH.
Qed.

End WithRoundtrip.
End StoreMore.

(** ** The reference implementations satisfy the laws *)

Module ReferenceLaws.
Import Reference.

(** *** Codecs *)

Lemma read_exactly_prepend (bs : list byte) (rest : read_stream_t) :
  read_exactly (prepend bs rest) (length bs) = Decoded bs rest.
Proof.
  unfold read_exactly. rewrite force_read_prepend.
  replace (Z.of_nat (length bs) =? -1) with false by (symmetry; apply Z.eqb_neq; lia).
  now rewrite Z.ltb_irrefl.
Qed.

Lemma Z_of_byte_of_Z (z : Z) : Z_of_byte (byte_of_Z z) = z mod 256.
Proof.
  unfold Z_of_byte, byte_of_Z.
  assert (Hb : 0 <= z mod 256 < 256) by (apply Z.mod_pos_bound; lia).
  destruct (Byte.of_N (Z.to_N (z mod 256))) as [b|] eqn:E.
  - apply Byte.to_of_N in E. rewrite E. apply Z2N.id. lia.
  - apply Byte.of_N_None_iff in E. lia.
Qed.

Lemma le_decode_encode (n : nat) (u : Z) :
  le_decode (le_encode n u) = u mod 256 ^ Z.of_nat n.
Proof.
  revert u. induction n as [|n IH]; intros u.
  - simpl. now rewrite Z.mod_1_r.
  - cbn [le_encode le_decode]. rewrite Z_of_byte_of_Z, IH.
    rewrite Nat2Z.inj_succ, Z.pow_succ_r by lia.
    rewrite Z.rem_mul_r by lia. reflexivity.
Qed.

Lemma length_le_encode (n : nat) (u : Z) : length (le_encode n u) = n.
Proof. revert u. induction n; intros; simpl; auto. Qed.

Lemma length_list_byte_of_string (s : string) :
  length (list_byte_of_string s) = String.length s.
Proof. induction s as [|c s IH]; simpl; [reflexivity | now f_equal]. Qed.

#[export] Instance bool_roundtrip : Roundtrip bool (fun _ => True).
Proof.
  intros b rest _. cbn [serialize deserialize bool_serializable].
  rewrite (read_exactly_prepend [_] rest). now destruct b.
Qed.

#[export] Instance int64_roundtrip : Roundtrip Z in_int64.
Proof.
  intros z rest Hz. cbn [serialize deserialize int64_serializable].
  pose proof (read_exactly_prepend (le_encode 8 (z mod 2 ^ 64)) rest) as Hr.
  rewrite length_le_encode in Hr. rewrite Hr, le_decode_encode.
  change (256 ^ Z.of_nat 8) with (2 ^ 64). rewrite Z.mod_mod by lia.
  f_equal. unfold to_int64. rewrite Zplus_mod_idemp_l.
  unfold in_int64, int64_min, int64_max in Hz.
  rewrite Z.mod_small by lia. lia.
Qed.

#[export] Instance string_roundtrip : Roundtrip string string_fits.
Proof.
  intros s rest Hs. unfold string_fits in Hs.
  assert (Hin : in_int64 (Z.of_nat (String.length s)))
    by (unfold in_int64, int64_min; split; [lia | exact Hs]).
  cbn [serialize deserialize string_serializable].
  rewrite to_int64_id by exact Hin.
  rewrite prepend_app, (roundtrip (T := Z)) by exact Hin.
  replace (Z.of_nat (String.length s) <? 0) with false
    by (symmetry; apply Z.ltb_ge; lia).
  rewrite Nat2Z.id, <- length_list_byte_of_string, read_exactly_prepend.
  now rewrite string_of_list_byte_of_string.
Qed.

Lemma store_key_of_string_contents (k : store_key_t) :
  store_key_of_string (contents k) = Some k.
Proof.
  destruct k as [c p]; simpl. unfold store_key_of_string.
  generalize (@eq_refl bool (String.length c <=? MAX_KEY_SIZE)%nat).
  generalize ((String.length c <=? MAX_KEY_SIZE)%nat) at 2 3.
  intros [|] e.
  - f_equal. now apply store_key_ext.
  - congruence.
Qed.

#[export] Instance store_key_roundtrip : Roundtrip store_key_t (fun _ => True).
Proof.
  intros k rest _. cbn [serialize deserialize store_key_serializable].
  change (?b :: ?l) with ([b] ++ l). rewrite prepend_app.
  rewrite (read_exactly_prepend [_] (prepend _ rest)).
  rewrite Z_of_byte_of_Z.
  pose proof (size_ok k) as Hk. apply Nat.leb_le in Hk. unfold MAX_KEY_SIZE in Hk.
  rewrite Z.mod_small by lia.
  rewrite Nat2Z.id, <- length_list_byte_of_string, read_exactly_prepend.
  now rewrite string_of_list_byte_of_string, store_key_of_string_contents.
Qed.

#[export] Instance key_range_roundtrip : Roundtrip key_range_t (fun _ => True).
Proof.
  intros [l [u k]] rest _. cbn [serialize deserialize key_range_serializable].
  cbn [left right unbounded key].
  rewrite !prepend_app.
  rewrite (roundtrip (T := store_key_t)) by exact I.
  rewrite (roundtrip (T := bool)) by exact I.
  now rewrite (roundtrip (T := store_key_t)) by exact I.
Qed.

End ReferenceLaws.

(** *** The order of the ends of ranges *)

Module ExtOrder <: UsualOrderedType.
Definition t := Reference.ext.
Include HasUsualEq <+ UsualIsEq.

Lemma eq_dec : forall x y : t, {x = y} + {x <> y}.
Proof.
  intros [a|] [b|]; try (right; discriminate); [|now left].
  destruct (store_key_eqb a b) eqn:E.
  - left. f_equal. now apply store_key_eqb_eq.
  - right. intros H; inversion H; subst.
    assert (store_key_eqb b b = true) by now apply store_key_eqb_eq.
    congruence.
Qed.

Definition compare := Reference.ext_compare.

Inductive before (x y : t) : Prop :=
| before_intro : Reference.ext_compare x y = Lt -> before x y.

Definition lt := before.

#[global] Instance lt_compat : Proper (eq ==> eq ==> iff) lt.
Proof. intros x x' Hx y y' Hy. now rewrite Hx, Hy. Qed.

#[global] Instance lt_strorder : StrictOrder lt.
Proof.
  split.
  - intros [a|] [H]; simpl in H; [|discriminate].
    revert H. apply (StrictOrder_Irreflexive (R := String_as_OT.lt)).
  - intros [a|] [b|] [c|] [H1] [H2]; constructor; simpl in *;
      try discriminate; auto.
    eapply (StrictOrder_Transitive (R := String_as_OT.lt)); eauto.
Qed.

Lemma compare_spec : forall x y, CompSpec eq lt x y (compare x y).
Proof.
  intros [a|] [b|]; unfold compare; simpl;
    try (constructor; (reflexivity || (constructor; reflexivity))).
  destruct (String_as_OT.compare_spec (contents a) (contents b)) as [E|L|L];
    constructor.
  - change (Some a = Some b). f_equal. now apply store_key_ext.
  - constructor. exact L.
  - constructor. exact L.
Qed.
End ExtOrder.

Module ExtFacts := OrderedTypeFacts ExtOrder.

Module RegionLaws.
Import Reference.

Lemma ext_leb_cases (x y : ext) :
  (ext_leb x y = true /\ ~ ExtOrder.lt y x)
  \/ (ext_leb x y = false /\ ExtOrder.lt y x).
Proof.
  unfold ext_leb. change (ext_compare x y) with (ExtOrder.compare x y).
  destruct (ExtOrder.compare_spec x y) as [E|L|L].
  - left. split; [reflexivity|]. ExtFacts.order.
  - left. split; [reflexivity|]. ExtFacts.order.
  - right. split; [reflexivity|]. exact L.
Qed.

Lemma ext_ltb_cases (x y : ext) :
  (ext_ltb x y = true /\ ExtOrder.lt x y)
  \/ (ext_ltb x y = false /\ ~ ExtOrder.lt x y).
Proof.
  unfold ext_ltb. change (ext_compare x y) with (ExtOrder.compare x y).
  destruct (ExtOrder.compare_spec x y) as [E|L|L].
  - right. split; [reflexivity|]. ExtFacts.order.
  - left. split; [reflexivity|]. exact L.
  - right. split; [reflexivity|]. ExtFacts.order.
Qed.

(** [None] is past every key. *)
Lemma ext_top (x : ext) : ~ ExtOrder.lt None x.
Proof. intros [H]. destruct x; discriminate. Qed.

(** Case analysis on every comparison of two atoms in sight. *)
Ltac ext_atom x :=
  first [ is_var x | match x with None => idtac | Some _ => idtac end ].

Ltac ext_split :=
  repeat match goal with
  | |- context [ext_leb ?x ?y] =>
      ext_atom x; ext_atom y;
      let E := fresh "E" in
      destruct (ext_leb_cases x y) as [[E ?]|[E ?]];
      rewrite E in *; clear E; cbv iota in *
  | H : context [ext_leb ?x ?y] |- _ =>
      ext_atom x; ext_atom y;
      let E := fresh "E" in
      destruct (ext_leb_cases x y) as [[E ?]|[E ?]];
      rewrite E in *; clear E; cbv iota in *
  | |- context [ext_ltb ?x ?y] =>
      ext_atom x; ext_atom y;
      let E := fresh "E" in
      destruct (ext_ltb_cases x y) as [[E ?]|[E ?]];
      rewrite E in *; clear E; cbv iota in *
  end.

Ltac ext_order :=
  first
    [ reflexivity
    | discriminate
    | exfalso; ExtFacts.order
    | match goal with
      | |- Some (_, _) = Some (_, _) =>
          f_equal; f_equal; ExtFacts.order
      end
    | ExtFacts.order ].

Ltac ext_auto :=
  repeat (progress (unfold ext_min, ext_max in *; ext_split; simpl in * ));
  ext_order.

Lemma ext_min_comm x y : ext_min x y = ext_min y x.
Proof. ext_auto. Qed.

Lemma ext_max_comm x y : ext_max x y = ext_max y x.
Proof. ext_auto. Qed.

Lemma ext_min_assoc x y z : ext_min x (ext_min y z) = ext_min (ext_min x y) z.
Proof. ext_auto. Qed.

Lemma ext_max_assoc x y z : ext_max x (ext_max y z) = ext_max (ext_max x y) z.
Proof. ext_auto. Qed.

(** *** Ranges by their ends *)

Lemma ext_leb_top (h : ext) : ext_leb h None = true.
Proof. destruct h; reflexivity. Qed.

Lemma ends_unfold (r : key_range_t) :
  ends r = if ext_leb (hi r) (lo r) then None else Some (lo r, hi r).
Proof. reflexivity. Qed.

Lemma ends_empty_range : ends empty_range = None.
Proof. reflexivity. Qed.

Lemma region_is_empty_make (l h : ext) : region_is_empty (make l h) = ext_leb h l.
Proof.
  destruct l as [k|]; [|now rewrite ext_leb_top].
  destruct h; reflexivity.
Qed.

Lemma ends_make (l h : ext) :
  ends (make l h) = if ext_leb h l then None else Some (l, h).
Proof.
  unfold ends. rewrite region_is_empty_make.
  destruct l as [k|]; [|now rewrite ext_leb_top].
  destruct h; reflexivity.
Qed.

Lemma hull_ends_keep (r : key_range_t) : hull_ends (keep r) = ends r.
Proof.
  unfold keep, ends. destruct (region_is_empty r) eqn:E; simpl; [reflexivity|].
  unfold ends. now rewrite E.
Qed.

Lemma span_ends_none_r (a : option (ext * ext)) : span_ends a None = a.
Proof. now destruct a as [[l h]|]. Qed.

Lemma span_ends_comm (a b : option (ext * ext)) : span_ends a b = span_ends b a.
Proof.
  destruct a as [[l1 h1]|], b as [[l2 h2]|]; simpl; try reflexivity.
  now rewrite ext_min_comm, ext_max_comm.
Qed.

Lemma span_ends_assoc (a b c : option (ext * ext)) :
  span_ends a (span_ends b c) = span_ends (span_ends a b) c.
Proof.
  destruct a as [[l1 h1]|], b as [[l2 h2]|], c as [[l3 h3]|]; simpl;
    try reflexivity.
  now rewrite ext_min_assoc, ext_max_assoc.
Qed.

Lemma span_ends_idem (a : option (ext * ext)) : span_ends a a = a.
Proof. destruct a as [[l h]|]; simpl; [|reflexivity]. ext_auto. Qed.

Lemma hull_ends_app (a b : list key_range_t) :
  hull_ends (a ++ b) = span_ends (hull_ends a) (hull_ends b).
Proof.
  induction a as [|r a IH]; simpl; [reflexivity|].
  now rewrite IH, span_ends_assoc.
Qed.

Lemma ends_region_span (a b : key_range_t) :
  ends (region_span a b) = span_ends (ends a) (ends b).
Proof.
  unfold region_span, region_is_empty.
  rewrite (ends_unfold a), (ends_unfold b).
  generalize (lo a) (hi a) (lo b) (hi b). intros la ha lb hb.
  destruct (ext_leb_cases ha la) as [[E1 ?]|[E1 ?]]; rewrite E1;
    destruct (ext_leb_cases hb lb) as [[E2 ?]|[E2 ?]]; rewrite E2; simpl;
    rewrite ?ends_empty_range, ?ends_make, ?E1, ?E2; try reflexivity.
  ext_auto.
Qed.

Lemma region_span_of_ends (a b : key_range_t) :
  region_span a b = of_ends (span_ends (ends a) (ends b)).
Proof.
  unfold region_span, ends.
  destruct (region_is_empty a), (region_is_empty b); reflexivity.
Qed.

(** The domain of a map, by the ends of its pieces. *)
Lemma ends_get_domain {V} (m : region_map_t V) :
  ends (get_domain m) = hull_ends (map fst m).
Proof.
  induction m as [|p m IH]; [reflexivity|].
  change (get_domain (p :: m)) with (region_span (fst p) (get_domain m)).
  rewrite ends_region_span, IH. reflexivity.
Qed.

Lemma get_domain_of_ends {V} (m : region_map_t V) :
  get_domain m = of_ends (hull_ends (map fst m)).
Proof.
  destruct m as [|p m]; [reflexivity|].
  change (get_domain (p :: m)) with (region_span (fst p) (get_domain m)).
  now rewrite region_span_of_ends, ends_get_domain.
Qed.

(** *** Subtracting and overlaying *)

Lemma span_ends_dist (x y s : option (ext * ext)) :
  span_ends (span_ends x y) s = span_ends (span_ends x s) (span_ends y s).
Proof.
  rewrite <- (span_ends_assoc x s), (span_ends_assoc s y s).
  rewrite (span_ends_comm s y), <- (span_ends_assoc y s s), span_ends_idem.
  apply eq_sym, span_ends_assoc.
Qed.

(** What is left of [r] outside [s], together with [s], spans what [r] and
    [s] span. *)
Lemma hull_subtract (r s : key_range_t) :
  span_ends (hull_ends (region_subtract r s)) (ends s)
  = span_ends (ends r) (ends s).
Proof.
  unfold region_subtract, region_intersection.
  rewrite region_is_empty_make.
  destruct (ext_leb (ext_min (hi r) (hi s)) (ext_max (lo r) (lo s))) eqn:E.
  - now rewrite hull_ends_keep.
  - rewrite hull_ends_app, !hull_ends_keep, !ends_make.
    rewrite (ends_unfold r), (ends_unfold s).
    revert E. generalize (lo r) (hi r) (lo s) (hi s). intros lr hr ls hs E.
    ext_auto.
Qed.

Lemma hull_subtract_pieces (ps : list key_range_t) (s : key_range_t) :
  span_ends (hull_ends (flat_map (fun p => region_subtract p s) ps)) (ends s)
  = span_ends (hull_ends ps) (ends s).
Proof.
  induction ps as [|p ps IH]; [reflexivity|].
  cbn [flat_map]. rewrite hull_ends_app, span_ends_dist, IH, hull_subtract.
  change (hull_ends (p :: ps)) with (span_ends (ends p) (hull_ends ps)).
  now rewrite <- span_ends_dist.
Qed.

Lemma hull_subtract_many (ss ps : list key_range_t) :
  span_ends (hull_ends (region_subtract_many ps ss)) (hull_ends ss)
  = span_ends (hull_ends ps) (hull_ends ss).
Proof.
  revert ps. induction ss as [|s ss IH]; intros ps; [reflexivity|].
  cbn [region_subtract_many].
  change (hull_ends (s :: ss)) with (span_ends (ends s) (hull_ends ss)).
  rewrite !(span_ends_comm (ends s)), !span_ends_assoc, IH.
  rewrite <- !span_ends_assoc, !(span_ends_comm (hull_ends ss)), !span_ends_assoc.
  now rewrite hull_subtract_pieces.
Qed.

Lemma map_fst_update {V} (old new : region_map_t V) :
  map fst (update old new)
  = flat_map (fun p => region_subtract_many (keep (fst p)) (map fst new)) old
      ++ map fst new.
Proof.
  cbn [update region_algebra]. rewrite map_app. f_equal.
  induction old as [|p old IH]; [reflexivity|].
  cbn [flat_map]. rewrite map_app, IH. f_equal.
  rewrite map_map. cbn [fst]. apply map_id.
Qed.

Lemma hull_update {V} (old new : region_map_t V) :
  hull_ends (map fst (update old new))
  = span_ends (hull_ends (map fst old)) (hull_ends (map fst new)).
Proof.
  rewrite map_fst_update, hull_ends_app.
  induction old as [|p old IH]; [reflexivity|].
  cbn [flat_map map]. rewrite hull_ends_app, span_ends_dist, IH.
  rewrite hull_subtract_many, hull_ends_keep.
  change (hull_ends (fst p :: map fst old))
    with (span_ends (ends (fst p)) (hull_ends (map fst old))).
  now rewrite <- span_ends_dist.
Qed.

(** A range that holds another spans no more with it than alone. *)
Lemma is_superset_absorbs (a b : key_range_t) :
  is_superset a b = true -> span_ends (ends a) (ends b) = ends a.
Proof.
  unfold is_superset, region_is_empty.
  rewrite (ends_unfold a), (ends_unfold b).
  generalize (lo a) (hi a) (lo b) (hi b). intros la ha lb hb H.
  ext_auto.
Qed.

#[export] Instance region_algebra_laws : RegionAlgebraLaws.
Proof.
  split.
  - intros V v. reflexivity.
  - intros V old new Hsup. cbn [region_is_superset region_algebra] in Hsup.
    apply is_superset_absorbs in Hsup. rewrite !ends_get_domain in Hsup.
    rewrite (get_domain_of_ends (update old new)), hull_update, Hsup.
    apply eq_sym, get_domain_of_ends.
Qed.

(** *** Membership and restriction *)

Lemma lo_make (x : store_key_t) (h : ext) : lo (make (Some x) h) = Some x.
Proof. destruct h; reflexivity. Qed.

Lemma hi_make (x : store_key_t) (h : ext) : hi (make (Some x) h) = h.
Proof. destruct h; reflexivity. Qed.

Lemma region_intersection_ends (a b : key_range_t) :
  exists x,
    ext_max (lo a) (lo b) = Some x
    /\ region_intersection a b = make (Some x) (ext_min (hi a) (hi b)).
Proof.
  unfold region_intersection, lo, ext_max.
  destruct (ext_leb (Some (left a)) (Some (left b))); eauto.
Qed.

(** A key is in the intersection of two ranges when it is in both. *)
Lemma contains_key_intersection (a b : key_range_t) (k : store_key_t) :
  region_contains_key (region_intersection a b) k
  = region_contains_key a k && region_contains_key b k.
Proof.
  destruct (region_intersection_ends a b) as (x & Hx & ->).
  unfold region_contains_key. rewrite lo_make, hi_make.
  rewrite <- Hx. generalize (lo a) (hi a) (lo b) (hi b). intros la ha lb hb.
  ext_auto.
Qed.

(** An empty range holds no key. *)
Lemma contains_key_empty (r : key_range_t) (k : store_key_t) :
  region_is_empty r = true -> region_contains_key r k = false.
Proof.
  unfold region_is_empty, region_contains_key.
  generalize (lo r) (hi r). intros l h H. ext_auto.
Qed.

Lemma value_at_cons {V} (p : key_range_t * V) (m : region_map_t V)
    (k : store_key_t) :
  value_at (p :: m) k
  = if region_contains_key (fst p) k then Some (snd p) else value_at m k.
Proof.
  unfold value_at. simpl. now destruct (region_contains_key (fst p) k).
Qed.

Lemma value_at_mask_reference {V} (m : region_map_t V) (sub : key_range_t)
    (k : store_key_t) :
  value_at (mask m sub) k
  = if region_contains_key sub k then value_at m k else None.
Proof.
  induction m as [|p m IH].
  - now destruct (region_contains_key sub k).
  - change (mask (p :: m) sub)
      with (map (fun r => (r, snd p)) (keep (region_intersection (fst p) sub))
              ++ mask m sub).
    pose proof (contains_key_intersection (fst p) sub k) as Hi.
    rewrite (value_at_cons p m). unfold keep.
    destruct (region_is_empty (region_intersection (fst p) sub)) eqn:He.
    + rewrite (contains_key_empty _ k He) in Hi. cbn [map app]. rewrite IH.
      destruct (region_contains_key (fst p) k), (region_contains_key sub k);
        simpl in Hi; try reflexivity; discriminate.
    + cbn [map app]. rewrite value_at_cons. cbn [fst snd]. rewrite Hi, IH.
      destruct (region_contains_key (fst p) k), (region_contains_key sub k);
        reflexivity.
Qed.

#[export] Instance region_map_laws : RegionMapLaws.
Proof.
  split.
  - intros r k. cbn [contains_key region_algebra].
    unfold region_contains_key, lo, hi.
    destruct (unbounded (right r)); reflexivity.
  - intros V m sub k. apply value_at_mask_reference.
Qed.

End RegionLaws.

(** *** The reference codecs take their bytes from the stream *)

Module ReferenceConsumes.
Import Reference.

Lemma read_exactly_consumes (s rest : read_stream_t) (n : nat) (got : list byte) :
  read_exactly s n = Decoded got rest ->
  (length (pending rest) + n = length (pending s))%nat.
Proof.
  unfold read_exactly, force_read. rewrite Nat2Z.id.
  destruct (n <=? length (pending s))%nat eqn:Hn.
  - apply Nat.leb_le in Hn.
    replace (Z.of_nat n =? -1) with false by (symmetry; apply Z.eqb_neq; lia).
    rewrite Z.ltb_irrefl. intros E; inversion E; subst; simpl.
    rewrite length_skipn. lia.
  - apply Nat.leb_gt in Hn. destruct (fails_at_end s).
    + simpl. discriminate.
    + replace (Z.of_nat (length (pending s)) =? -1) with false
        by (symmetry; apply Z.eqb_neq; lia).
      replace (Z.of_nat (length (pending s)) <? Z.of_nat n) with true
        by (symmetry; apply Z.ltb_lt; lia).
      discriminate.
Qed.

#[export] Instance bool_consumes : Consumes bool 1.
Proof.
  intros s x rest. cbn [deserialize bool_serializable].
  destruct (read_exactly s 1) as [got s1|e s1] eqn:Hr; [|discriminate].
  apply read_exactly_consumes in Hr.
  destruct got as [|b got]; [discriminate|].
  destruct b; try discriminate;
    (destruct got; [|discriminate]); intros E; inversion E; subst; lia.
Qed.

#[export] Instance int64_consumes : Consumes Z 0.
Proof.
  intros s x rest. cbn [deserialize int64_serializable].
  destruct (read_exactly s 8) as [got s1|e s1] eqn:Hr; [|discriminate].
  apply read_exactly_consumes in Hr.
  intros E; inversion E; subst; lia.
Qed.

#[export] Instance string_consumes : Consumes string 0.
Proof.
  intros s x rest. cbn [deserialize string_serializable].
  destruct (deserialize (T := Z) s) as [sz s1|e s1] eqn:Hz; [|discriminate].
  apply consumes in Hz.
  destruct (sz <? 0); [discriminate|].
  destruct (read_exactly s1 (Z.to_nat sz)) as [got s2|e s2] eqn:Hr;
    [|discriminate].
  apply read_exactly_consumes in Hr.
  intros E; inversion E; subst; lia.
Qed.
End ReferenceConsumes.

(** ** Checking the metainfo *)

(** *** The order of keys *)

Lemma store_key_leb_cases (a b : store_key_t) :
  (store_key_leb a b = true /\ ~ ExtOrder.lt (Some b) (Some a))
  \/ (store_key_leb a b = false /\ ExtOrder.lt (Some b) (Some a)).
Proof. exact (RegionLaws.ext_leb_cases (Some a) (Some b)). Qed.

Lemma store_key_ltb_cases (a b : store_key_t) :
  (store_key_ltb a b = true /\ ExtOrder.lt (Some a) (Some b))
  \/ (store_key_ltb a b = false /\ ~ ExtOrder.lt (Some a) (Some b)).
Proof. exact (RegionLaws.ext_ltb_cases (Some a) (Some b)). Qed.

(** The empty key is the least key. *)
Lemma store_key_empty_least (k : store_key_t) :
  ~ ExtOrder.lt (Some k) (Some store_key_empty).
Proof.
  intros [H]. simpl in H. destruct (contents k); discriminate.
Qed.

(** Among keys of which one is not above [k], the greatest that is not
    above [k]. *)
Lemma greatest_not_above (k : store_key_t) (ks : list store_key_t) :
  (exists a, In a ks /\ ~ ExtOrder.lt (Some k) (Some a)) ->
  exists b,
    In b ks
    /\ ~ ExtOrder.lt (Some k) (Some b)
    /\ forall a, In a ks -> ~ ExtOrder.lt (Some k) (Some a) ->
                 ~ ExtOrder.lt (Some b) (Some a).
Proof.
  induction ks as [|c ks IH]; intros (a & Ha & Hak); [contradiction|].
  assert (Hrest : (exists a, In a ks /\ ~ ExtOrder.lt (Some k) (Some a))
                  \/ ~ (exists a, In a ks /\ ~ ExtOrder.lt (Some k) (Some a))).
  { clear. induction ks as [|d ks IH].
    - right. intros (a & [] & _).
    - destruct (store_key_leb_cases d k) as [[_ Hd]|[_ Hd]].
      + left. exists d. split; [now left | exact Hd].
      + destruct IH as [(a & Ha & Hak)|Hn].
        * left. exists a. split; [now right | exact Hak].
        * right. intros (a & [<-|Ha] & Hak); [contradiction|].
          apply Hn. eauto. }
  destruct Hrest as [Hsome|Hnone].
  - destruct (IH Hsome) as (b & Hb & Hbk & Hmax).
    destruct (store_key_leb_cases c k) as [[_ Hck]|[_ Hck]].
    + destruct (store_key_leb_cases c b) as [[_ Hcb]|[_ Hcb]].
      * exists b. split; [now right|]. split; [exact Hbk|].
        intros x [<-|Hx] Hxk; [exact Hcb | now apply Hmax].
      * exists c. split; [now left|]. split; [exact Hck|].
        intros x [<-|Hx] Hxk; [ExtFacts.order|].
        specialize (Hmax x Hx Hxk). ExtFacts.order.
    + exists b. split; [now right|]. split; [exact Hbk|].
      intros x [<-|Hx] Hxk; [contradiction | now apply Hmax].
  - destruct Ha as [<-|Ha]; [|exfalso; apply Hnone; eauto].
    exists c. split; [now left|]. split; [exact Hak|].
    intros x [<-|Hx] Hxk; [ExtFacts.order|].
    exfalso. apply Hnone. eauto.
Qed.

Section MetainfoCheck.
Context {RA : RegionAlgebra} {RM : RegionMapLaws}.

(** Between one end of a piece and the next, a key is in the pieces its
    neighbour below is in. *)
Lemma contains_key_between {V} (p : key_range_t * V) (b k : store_key_t) :
  ~ ExtOrder.lt (Some k) (Some b) ->
  (forall a, In a (piece_ends p) -> ~ ExtOrder.lt (Some k) (Some a) ->
             ~ ExtOrder.lt (Some b) (Some a)) ->
  contains_key (fst p) k = contains_key (fst p) b.
Proof.
  intros Hbk Hmax. rewrite !contains_key_range.
  unfold piece_ends in Hmax.
  assert (Hl := Hmax (left (fst p)) (or_introl eq_refl)).
  destruct (unbounded (right (fst p))) eqn:Hu; simpl.
  - rewrite !andb_true_r.
    destruct (store_key_leb_cases (left (fst p)) k) as [[-> H1]|[-> H1]];
      destruct (store_key_leb_cases (left (fst p)) b) as [[-> H2]|[-> H2]];
      try reflexivity; exfalso.
    + specialize (Hl H1). ExtFacts.order.
    + ExtFacts.order.
  - assert (Hr := Hmax (key (right (fst p))) (or_intror (or_introl eq_refl))).
    destruct (store_key_leb_cases (left (fst p)) k) as [[-> H1]|[-> H1]];
      destruct (store_key_leb_cases (left (fst p)) b) as [[-> H2]|[-> H2]];
      destruct (store_key_ltb_cases k (key (right (fst p)))) as [[-> H3]|[-> H3]];
      destruct (store_key_ltb_cases b (key (right (fst p)))) as [[-> H4]|[-> H4]];
      try reflexivity; exfalso;
      try (specialize (Hl H1)); try (specialize (Hr H3)); ExtFacts.order.
Qed.

Lemma find_ext_in {A} (f g : A -> bool) (l : list A) :
  (forall x, In x l -> f x = g x) -> find f l = find g l.
Proof.
  induction l as [|x l IH]; intros H; [reflexivity|]. simpl.
  rewrite (H x (or_introl eq_refl)).
  destruct (g x); [reflexivity|]. apply IH. intros y Hy. apply H. now right.
Qed.

Lemma value_at_between {V} (m : region_map_t V) (b k : store_key_t) :
  ~ ExtOrder.lt (Some k) (Some b) ->
  (forall a, In a (region_map_ends m) -> ~ ExtOrder.lt (Some k) (Some a) ->
             ~ ExtOrder.lt (Some b) (Some a)) ->
  value_at m k = value_at m b.
Proof.
  intros Hbk Hmax. unfold value_at.
  rewrite (find_ext_in (fun p => contains_key (fst p) k)
             (fun p => contains_key (fst p) b)); [reflexivity|].
  intros p Hp. apply contains_key_between; [exact Hbk|].
  intros a Ha. apply Hmax. unfold region_map_ends.
  apply in_flat_map. eauto.
Qed.

(** The comparison of two region maps at the ends of their pieces decides
    whether they agree at every key. *)
Lemma region_map_eqb_agree {V} (veqb : V -> V -> bool) :
  (forall x y, veqb x y = true <-> x = y) ->
  forall a b : region_map_t V,
    region_map_eqb veqb a b = true <-> region_map_agree a b.
Proof.
  intros Hv a b. split; [|apply (region_map_eqb_of_agree veqb Hv)].
  unfold region_map_eqb. rewrite forallb_forall. intros Hs k.
  destruct (greatest_not_above k
              (store_key_empty :: region_map_ends a ++ region_map_ends b))
    as (e & He & Hek & Hmax).
  { exists store_key_empty. split; [now left|]. apply store_key_empty_least. }
  rewrite (value_at_between a e k), (value_at_between b e k); auto.
  - apply (option_eqb_eq veqb Hv). now apply Hs.
  - intros x Hx. apply Hmax. right. apply in_or_app. now right.
  - intros x Hx. apply Hmax. right. apply in_or_app. now left.
Qed.

Context {BL : BtreeLayer} {Sk : Serializable key_range_t}.

(** C3. With the metainfo on the superblock read as [current]: when
    [current], masked to the domain of [expected_metainfo], differs from
    [expected_metainfo] at some key, [check_metainfo], [read] and [write]
    fail with MetainfoMismatch, and so they do when [current] itself
    differs from [expected_metainfo] at a key of that domain; when the
    masked map and [expected_metainfo] agree at every key, however each is
    cut into pieces, [check_metainfo] returns the whole of [current],
    [read] goes on to the B-tree operation of its query, and [write] goes
    on to update the metainfo and to the B-tree operation of its
    mutation. *)
Theorem check_metainfo_mismatch
    (expected current : metainfo_t) (st : store_t) :
  Store.get_metainfo_internal st = Ok current ->
  (~ region_map_agree (mask current (get_domain expected)) expected ->
     Store.check_metainfo expected st = Fault MetainfoMismatch
     /\ (forall r, Store.read expected r st = Fault MetainfoMismatch)
     /\ (forall new w ts,
           Store.write expected new w ts st = Fault MetainfoMismatch))
  /\ ((exists k,
         contains_key (get_domain expected) k = true
         /\ value_at current k <> value_at expected k) ->
     Store.check_metainfo expected st = Fault MetainfoMismatch
     /\ (forall r, Store.read expected r st = Fault MetainfoMismatch)
     /\ (forall new w ts,
           Store.write expected new w ts st = Fault MetainfoMismatch))
  /\ (region_map_agree (mask current (get_domain expected)) expected ->
     Store.check_metainfo expected st = Ok current
     /\ (forall r,
           Store.read expected r st
           = Ok (Store.read_visitor (query r) (read_effective_time r) st))
     /\ (forall new w ts,
           Store.write expected new w ts st
           = bind (Store.update_metainfo current new st)
               (Store.write_visitor (mutation w) (proposed_cas w)
                  (write_effective_time w)
                  (transition_to_repli_timestamp ts)))).
Proof.
  intros Hc.
  pose proof (check_metainfo_spec expected current st Hc) as Hk.
  pose proof (region_map_eqb_agree binary_blob_eqb binary_blob_eqb_eq
                (mask current (get_domain expected)) expected) as Hagree.
  assert (Hfail : ~ region_map_agree (mask current (get_domain expected)) expected ->
     Store.check_metainfo expected st = Fault MetainfoMismatch
     /\ (forall r, Store.read expected r st = Fault MetainfoMismatch)
     /\ (forall new w ts,
           Store.write expected new w ts st = Fault MetainfoMismatch)).
  { intros Hm. destruct (region_map_eqb _ _ _) eqn:E in Hk.
    { exfalso. apply Hm, Hagree, E. }
    split; [exact Hk|]. split.
    - intros r. unfold Store.read. now rewrite Hk.
    - intros new w ts.
      unfold Store.write, Store.check_and_update_metainfo. now rewrite Hk. }
  split; [exact Hfail|]. split.
  - intros (k & Hin & Hne). apply Hfail. intros Ha. apply Hne.
    rewrite <- (Ha k), value_at_mask, Hin. reflexivity.
  - intros Hm. destruct (region_map_eqb _ _ _) eqn:E in Hk.
    2:{ apply Hagree in Hm. congruence. }
    split; [exact Hk|]. split.
    + intros r. unfold Store.read. now rewrite Hk.
    + intros new w ts.
      unfold Store.write, Store.check_and_update_metainfo. now rewrite Hk.
Qed.
End MetainfoCheck.

(** ** Examples on the reference implementations *)

Module Examples.
Import Reference.

(** An absent buffer leaves what the destination held. *)
Example absent_keeps_destination :
  deserialize_data_buffer
    (vector_read_stream_t (serialize_data_buffer [] None)) (Some [x61])
  = (0, Some [x61], vector_read_stream_t []).
Proof. reflexivity. Qed.

(** "A negative serialized size on input is a DecodeError": result -3. *)
Example negative_size :
  fst (fst (deserialize_data_buffer
              (vector_read_stream_t (serialize true ++ serialize (-1))) None))
  = -3.
Proof. reflexivity. Qed.

(** A payload cut short is an end of file, result -2; on a transport that
    fails it is an error, result -1. *)
Example truncated_payload :
  fst (fst (deserialize_data_buffer
              (vector_read_stream_t (serialize true ++ serialize 3 ++ [x61]))
              None))
  = -2
  /\ fst (fst (deserialize_data_buffer
                 (mk_stream (serialize true ++ serialize 3 ++ [x61]) true)
                 None))
     = -1.
Proof. split; reflexivity. Qed.

(** "Empty range rget emits a single terminator element and nothing
    else." *)
Example empty_rget :
  serialize_rget_result 1 [] (vector_backed_result vector_backed_new)
  = Some ([x00], vector_backed_result vector_backed_new).
Proof. reflexivity. Qed.

(** Scenario 3 of the specification: a range read from "a" to "d", both
    closed, on the keys "a" to "d", sharded at "c"; the merged stream yields
    the four pairs in key order. *)
Example rget_shard_merge :
  let rget := mk_read (Rget (mk_rget_query rget_bound_closed (key_of "a")
                               rget_bound_closed (key_of "d"))) 0 in
  let below_c := mk_key_range (key_of "a") (mk_right_bound false (key_of "c")) in
  let from_c := mk_key_range (key_of "c") (right (Read.get_region rget)) in
  let read_shard sub :=
    (st <- populated [("a", [x31]); ("b", [x32]); ("c", [x33]); ("d", [x34])]%string ;;
     r <- Read.shard rget sub ;;
     Store.read [(universe, [])] r st)%result in
  (r1 <- read_shard below_c ;;
   r2 <- read_shard from_c ;;
   merged <- Read.unshard rget [r2; r1] ;;
   it <- boost_get_rget_result merged ;;
   Ok (option_map fst (drain 5 it)))%result
  = Ok (Some [mk_kv "a" (Some [x31]); mk_kv "b" (Some [x32]);
              mk_kv "c" (Some [x33]); mk_kv "d" (Some [x34])]).
Proof. vm_compute. reflexivity. Qed.

(** Scenario 4: a [Delete] of "a" that places blob "B" on the range from
    "a" to "b"; afterwards "a" is missing and the metainfo masked to the
    range is the blob. *)
Example delete_with_metainfo :
  ('(_, st) <-
     (st <- populated [("a", [x31]); ("b", [x32])]%string ;;
      Store.write [(universe, [])] [(a_to_b, [x42])]
        (mk_write (Delete (mk_delete (key_of "a") false)) INVALID_CAS 0) 2 st) ;;
   rsp <- Store.read [] (mk_read (Get (mk_get_query (key_of "a"))) 0) st ;;
   current <- Store.get_metainfo st ;;
   Ok (rsp, mask current a_to_b))%result
  = Ok (get_result (mk_get_result None 0 0), [(a_to_b, [x42])]).
Proof. vm_compute. reflexivity. Qed.

(** Scenario 6: [reset_data] on the whole key space with a new blob "Z";
    afterwards a range read of everything yields nothing and the metainfo is
    the blob on [universe]. *)
Example reset_erases :
  (st <- populated [("a", [x31]); ("b", [x32])]%string ;;
   st <- Store.reset_data universe [(universe, [x5a])] st ;;
   rsp <- Store.read []
            (mk_read (Rget (mk_rget_query rget_bound_none store_key_empty
                              rget_bound_none store_key_empty)) 0) st ;;
   it <- boost_get_rget_result rsp ;;
   current <- Store.get_metainfo st ;;
   Ok (option_map fst (drain 1 it), current))%result
  = Ok (Some [], [(universe, [x5a])]).
Proof. vm_compute. reflexivity. Qed.

End Examples.

(** ** The properties at work on the reference implementations *)

Import Reference ReferenceLaws RegionLaws.

(** A two-byte buffer, written and read back in front of other bytes. *)
Lemma data_buffer_roundtrip_witness :
  let buf : data_buffer_ptr := Some [x68; x69] in
  let rest := vector_read_stream_t [x2a] in
  buffer_fits buf
  /\ serialize_data_buffer [] buf
     = [x01; x02; x00; x00; x00; x00; x00; x00; x00; x68; x69]
  /\ deserialize_data_buffer (prepend (serialize_data_buffer [] buf) rest) None
     = (0, buf, rest).
Proof.
  intros buf rest.
  assert (Hfit : buffer_fits buf) by (vm_compute; discriminate).
  exact (conj Hfit
           (conj (proj1 (data_buffer_roundtrip buf rest Hfit))
                 (proj2 (proj2 (data_buffer_roundtrip buf rest Hfit))))).
Defined.

(** Two elements, the second without data: two frames and the terminator. *)
Lemma serialize_rget_result_framing_witness :
  let xs := [mk_kv "a" (Some [x31]); mk_kv "b" None] in
  let it := mk_vector_backed xs 0 in
  let it' := mk_vector_backed xs 2 in
  drains it xs it'
  /\ (length xs < 3)%nat
  /\ serialize_rget_result 3 [] it
     = Some ([x01; x01; x00; x00; x00; x00; x00; x00; x00; x61;
              x01; x01; x00; x00; x00; x00; x00; x00; x00; x31;
              x01; x01; x00; x00; x00; x00; x00; x00; x00; x62; x00;
              x00], it').
Proof.
  intros xs it it'.
  assert (Hd : drains it xs it').
  { eapply drains_more; [reflexivity|].
    eapply drains_more; [reflexivity|].
    apply drains_done. reflexivity. }
  assert (Hf : (length xs < 3)%nat) by (simpl; lia).
  exact (conj Hd (conj Hf
           (proj1 (serialize_rget_result_framing it it' xs 3 [] Hd Hf)))).
Defined.

(** The same two elements read back: result 0, and an empty iterator. *)
Lemma deserialize_rget_result_retains_nothing_witness :
  let xs := [mk_kv "a" (Some [x31]); mk_kv "b" None] in
  let rest := vector_read_stream_t [x2a] in
  Forall (element_ok string_fits) xs
  /\ (length xs < 3)%nat
  /\ deserialize_rget_result 3
       (prepend (flat_map frame xs ++ serialize false) rest)
     = Some (0, vector_backed_result vector_backed_new, rest).
Proof.
  intros xs rest.
  assert (Hok : Forall (element_ok string_fits) xs).
  { repeat constructor; vm_compute; discriminate. }
  assert (Hf : (length xs < 3)%nat) by (simpl; lia).
  exact (conj Hok (conj Hf
           (proj1 (deserialize_rget_result_retains_nothing xs 3 rest Hok Hf)))).
Defined.

(** A range read from "a" to "d" sharded to the keys from "b" up to "c". *)
Lemma shard_spec_witness :
  let q := mk_rget_query rget_bound_closed (key_of "a") rget_bound_open (key_of "d") in
  let sub := mk_key_range (key_of "b") (mk_right_bound false (key_of "c")) in
  region_is_superset (Read.get_region (mk_read (Rget q) 7)) sub = true
  /\ exists q',
       Read.shard (mk_read (Rget q) 7) sub = Ok (mk_read (Rget q') 7)
       /\ left_mode q' = rget_bound_closed
       /\ left_key q' = left sub
       /\ (unbounded (right sub) = true -> right_mode q' = rget_bound_none)
       /\ (unbounded (right sub) = false ->
           right_mode q' = rget_bound_open /\ right_key q' = key (right sub)).
Proof.
  intros q sub.
  assert (Hsup : region_is_superset (Read.get_region (mk_read (Rget q) 7)) sub = true)
    by reflexivity.
  exact (conj Hsup (proj1 shard_spec q 7 sub Hsup)).
Defined.

(** No response, two responses, and the one response a store of one key
    gives to a [Get] of that key. *)
Lemma unshard_single_response_witness :
  let r := mk_read (Get (mk_get_query (key_of "a"))) 0 in
  let g := mk_get_result (Some [x31]) 0 5 in
  let st := mk_store [(serialize universe, [])]
              [(key_of "a", (Some [x31], 0, 5))] in
  length (@nil read_response_t) <> 1%nat
  /\ Read.unshard r [] = Fault DomainViolation
  /\ Read.unshard r [get_result g; get_result g] = Fault DomainViolation
  /\ Store.read [(universe, [])] r st = Ok (get_result g)
  /\ Read.unshard r [get_result g] = Ok (get_result g).
Proof.
  intros r g st.
  assert (H0 : length (@nil read_response_t) <> 1%nat) by (simpl; lia).
  assert (H2 : length [get_result g; get_result g] <> 1%nat) by (simpl; lia).
  assert (Hr : Store.read [(universe, [])] r st = Ok (get_result g))
    by reflexivity.
  exact (conj H0
           (conj (proj1 unshard_single_response (mk_get_query (key_of "a")) 0 [] H0)
              (conj (proj1 unshard_single_response (mk_get_query (key_of "a")) 0
                       [get_result g; get_result g] H2)
                 (conj Hr
                    (proj1 (proj2 unshard_single_response)
                       (mk_get_query (key_of "a")) (mk_get_query (key_of "a"))
                       0 0 [(universe, [])] st (get_result g) Hr))))).
Defined.

(** One blob on [universe], persisted on the created store and read back. *)
Lemma metainfo_roundtrip_witness :
  let m : metainfo_t := [(universe, [x05])] in
  get_domain m = universe
  /\ exists st',
       Store.write_pairs m (clear_superblock_metainfo created) = Ok st'
       /\ sb_metainfo st' = map (fun p => (serialize (fst p), snd p)) m
       /\ Store.get_metainfo_internal st' = Ok m.
Proof.
  intros m.
  assert (Hd : get_domain m = universe) by reflexivity.
  exact (conj Hd (proj1 metainfo_roundtrip m created Hd)).
Defined.

(** A blob overlaid on the keys from "a" up to "b" of a map on [universe]. *)
Lemma metainfo_domain_invariant_witness :
  let old : metainfo_t := [(universe, [x01])] in
  let new : metainfo_t := [(a_to_b, [x02])] in
  get_domain old = universe
  /\ region_is_superset universe (get_domain new) = true
  /\ exists st' m,
       Store.update_metainfo old new created = Ok st'
       /\ Store.get_metainfo_internal st' = Ok m
       /\ m = update old new
       /\ get_domain m = universe.
Proof.
  intros old new.
  assert (Hold : get_domain old = universe) by reflexivity.
  assert (Hnew : region_is_superset universe (get_domain new) = true) by reflexivity.
  exact (conj Hold (conj Hnew
           (proj1 (proj2 metainfo_domain_invariant) old new created Hold Hnew))).
Defined.

(** The created store checked against a stale map, against the current
    map, and against the current map cut in two at the key "m". *)
Lemma check_metainfo_mismatch_witness :
  let current : metainfo_t := [(universe, [])] in
  let stale : metainfo_t := [(universe, [x01])] in
  let cut : metainfo_t :=
    [(mk_key_range store_key_empty (mk_right_bound false (key_of "m")), []);
     (mk_key_range (key_of "m") (mk_right_bound true store_key_empty), [])] in
  Store.get_metainfo_internal created = Ok current
  /\ ~ region_map_agree (mask current (get_domain stale)) stale
  /\ (contains_key (get_domain stale) (key_of "k") = true
      /\ value_at current (key_of "k") <> value_at stale (key_of "k"))
  /\ region_map_agree (mask current (get_domain cut)) cut
  /\ Store.check_metainfo stale created = Fault MetainfoMismatch
  /\ (forall r, Store.read stale r created = Fault MetainfoMismatch)
  /\ Store.check_metainfo cut created = Ok current
  /\ Store.check_metainfo current created = Ok current.
Proof.
  intros current stale cut.
  assert (Hc : Store.get_metainfo_internal created = Ok current) by reflexivity.
  assert (Hne : ~ region_map_agree (mask current (get_domain stale)) stale).
  { intros H. specialize (H store_key_empty). vm_compute in H. discriminate. }
  assert (Hk : contains_key (get_domain stale) (key_of "k") = true
               /\ value_at current (key_of "k") <> value_at stale (key_of "k")).
  { split; [reflexivity | vm_compute; discriminate]. }
  assert (Hcut : region_map_agree (mask current (get_domain cut)) cut).
  { apply (region_map_eqb_agree binary_blob_eqb binary_blob_eqb_eq).
    vm_compute. reflexivity. }
  assert (Heq : region_map_agree (mask current (get_domain current)) current).
  { intros k. reflexivity. }
  exact (conj Hc (conj Hne (conj Hk (conj Hcut
           (conj (proj1 (proj1 (check_metainfo_mismatch stale current created Hc)
                           Hne))
              (conj (proj1 (proj2 (proj1 (proj2
                              (check_metainfo_mismatch stale current created Hc))
                              (ex_intro _ (key_of "k") Hk))))
                 (conj (proj1 (proj2 (proj2
                                 (check_metainfo_mismatch cut current created Hc))
                                 Hcut))
                       (proj1 (proj2 (proj2
                                 (check_metainfo_mismatch current current created Hc))
                                 Heq))))))))).
Defined.

(** A store of one key, backfilled from the start of time, refused and accepted. *)
Lemma send_backfill_spec_witness :
  let st := mk_store [(serialize universe, [])]
              [(key_of "k", (Some [x76], 0, 5))] in
  let start_point : region_map_t state_timestamp_t := [(universe, 0)] in
  Store.get_metainfo_internal st = Ok [(universe, [])]
  /\ Store.send_backfill start_point (fun _ => false) [] st = Ok (false, [], [])
  /\ exists chunks constituents,
       Store.send_backfill start_point (fun _ => true) [] st
       = Ok (true, chunks, [] ++ constituents)
       /\ chunks
          = flat_map
              (fun p =>
                 map Store.memcached_backfill_callback
                   (fst (memcached_backfill (btree st) (fst p)
                           (state_to_repli_timestamp (snd p)))))
              start_point
       /\ constituents
          = map (fun p =>
                   snd (memcached_backfill (btree st) (fst p)
                          (state_to_repli_timestamp (snd p))))
              start_point
       /\ length constituents = length start_point.
Proof.
  intros st start_point.
  assert (Hc : Store.get_metainfo_internal st = Ok [(universe, [])]) by reflexivity.
  exact (conj Hc
           (conj (proj1 (send_backfill_spec start_point (fun _ => false) [] _ st Hc)
                    eq_refl)
                 (proj2 (send_backfill_spec start_point (fun _ => true) [] _ st Hc)
                    eq_refl))).
Defined.

(** ** The further properties at work on the reference implementations *)

Import ReferenceConsumes.

(** An iterator over three numbers, the first of them yielded already. *)
Lemma exhausted_iterator_resumes_witness :
  let it := mk_vector_backed [1; 2; 3]%nat 1 in
  let done := mk_vector_backed [1; 2; 3]%nat 3 in
  (pos it <= length (data it))%nat
  /\ drains it [2; 3]%nat done
  /\ next done = (None, done)
  /\ next (push_back done 4%nat)
     = (Some 4%nat, mk_vector_backed [1; 2; 3; 4]%nat 4).
Proof.
  intros it done.
  assert (Hp : (pos it <= length (data it))%nat) by (simpl; lia).
  exact (conj Hp
           (conj (proj1 (exhausted_iterator_resumes it Hp))
              (conj (proj1 (proj2 (exhausted_iterator_resumes it Hp)))
                 (proj1 (proj2 (proj2 (exhausted_iterator_resumes it Hp))
                           4%nat))))).
Defined.

(** A two-byte buffer read from a stream that goes on after it. *)
Lemma deserialize_data_buffer_success_witness :
  let s := vector_read_stream_t
             [x01; x02; x00; x00; x00; x00; x00; x00; x00; x68; x69; x2a] in
  let s' := vector_read_stream_t [x2a] in
  let buf' : data_buffer_ptr := Some [x68; x69] in
  deserialize_data_buffer s None = (0, buf', s')
  /\ ((exists s1,
         deserialize (T := bool) s = Decoded false s1
         /\ buf' = None /\ s' = s1)
      \/ (exists s1 n s2 b,
         deserialize (T := bool) s = Decoded true s1
         /\ deserialize (T := Z) s1 = Decoded n s2
         /\ 0 <= n
         /\ buf' = Some b
         /\ Z.of_nat (size b) = n
         /\ pending s2 = b ++ pending s'
         /\ fails_at_end s' = fails_at_end s2)).
Proof.
  intros s s' buf'.
  assert (Hr : deserialize_data_buffer s None = (0, buf', s')) by reflexivity.
  exact (conj Hr (deserialize_data_buffer_success s s' None buf' Hr)).
Defined.

(** The size -1 after a true flag, in front of other bytes. *)
Lemma deserialize_data_buffer_negative_size_witness :
  let dst : data_buffer_ptr := Some [x61] in
  let rest := vector_read_stream_t [x2a] in
  in_int64 (-1)
  /\ -1 < 0
  /\ deserialize_data_buffer
       (prepend (serialize true ++ serialize (-1)) rest) dst
     = (-3, dst, rest).
Proof.
  intros dst rest.
  assert (Hi : in_int64 (-1)) by (split; vm_compute; discriminate).
  assert (Hn : -1 < 0) by reflexivity.
  exact (conj Hi (conj Hn
           (deserialize_data_buffer_negative_size (-1) dst rest Hi Hn))).
Defined.

(** One byte where three were announced, at an end of file. *)
Lemma deserialize_data_buffer_truncated_witness :
  in_int64 3
  /\ Z.of_nat (length [x61]) < 3
  /\ exists b,
       deserialize_data_buffer
         (mk_stream (serialize true ++ serialize 3 ++ [x61]) false) None
       = (-2, Some b, mk_stream [] false)
       /\ Z.of_nat (size b) = 3
       /\ firstn (length [x61]) b = [x61].
Proof.
  assert (Hi : in_int64 3) by (split; vm_compute; discriminate).
  assert (Hn : Z.of_nat (length [x61]) < 3) by reflexivity.
  exact (conj Hi (conj Hn
           (deserialize_data_buffer_truncated 3 [x61] false None Hi Hn))).
Defined.

(** Two references to buffers of the same two bytes. *)
Lemma serialize_data_buffer_injective_witness :
  let a : data_buffer_ptr := Some [x68; x69] in
  let b : data_buffer_ptr := Some ([x68] ++ [x69]) in
  buffer_fits a
  /\ buffer_fits b
  /\ serialize_data_buffer [] a = serialize_data_buffer [] b
  /\ a = b.
Proof.
  intros a b.
  assert (Ha : buffer_fits a) by (vm_compute; discriminate).
  assert (Hb : buffer_fits b) by (vm_compute; discriminate).
  assert (He : serialize_data_buffer [] a = serialize_data_buffer [] b)
    by reflexivity.
  exact (conj Ha (conj Hb (conj He
           (serialize_data_buffer_injective a b Ha Hb He)))).
Defined.

(** A result of two elements, the first of them yielded already. *)
Lemma serialize_vector_backed_result_witness :
  let xs := [mk_kv "a" (Some [x31]); mk_kv "b" None] in
  let it := mk_vector_backed xs 1 in
  (pos it <= length (data it))%nat
  /\ serialize_rget_result 2 [] (vector_backed_result it)
     = Some ([x01; x01; x00; x00; x00; x00; x00; x00; x00; x62; x00; x00],
             vector_backed_result (mk_vector_backed xs 2)).
Proof.
  intros xs it.
  assert (Hp : (pos it <= length (data it))%nat) by (simpl; lia).
  exact (conj Hp (serialize_vector_backed_result it [] Hp)).
Defined.

(** One frame, and then the end of the file where a flag should be. *)
Lemma deserialize_rget_result_cut_witness :
  let xs := [mk_kv "a" (Some [x31])] in
  let s0 := vector_read_stream_t [] in
  Forall (element_ok string_fits) xs
  /\ deserialize (T := bool) s0 = Failed sock_eof s0
  /\ (length xs < 2)%nat
  /\ deserialize_rget_result 2 (prepend (flat_map frame xs) s0)
     = Some (code sock_eof, vector_backed_result vector_backed_new, s0)
  /\ code sock_eof <> 0.
Proof.
  intros xs s0.
  assert (Hok : Forall (element_ok string_fits) xs).
  { repeat constructor; vm_compute; discriminate. }
  assert (Hb : deserialize (T := bool) s0 = Failed sock_eof s0) by reflexivity.
  assert (Hf : (length xs < 2)%nat) by (simpl; lia).
  exact (conj Hok (conj Hb (conj Hf
           (deserialize_rget_result_cut xs 2 s0 s0 sock_eof Hok Hb Hf)))).
Defined.

(** Two elements written, read back and written again. *)
Lemma rget_result_write_read_write_witness :
  let xs := [mk_kv "a" (Some [x31]); mk_kv "b" None] in
  let it := mk_vector_backed xs 0 in
  let it' := mk_vector_backed xs 2 in
  let rest := vector_read_stream_t [x2a] in
  drains it xs it'
  /\ Forall (element_ok string_fits) xs
  /\ (length xs < 3)%nat
  /\ exists msg back,
       serialize_rget_result 3 [] it = Some (msg, it')
       /\ deserialize_rget_result 3 (prepend msg rest) = Some (0, back, rest)
       /\ drains back [] back
       /\ serialize_rget_result 3 [] back = Some (serialize false, back).
Proof.
  intros xs it it' rest.
  assert (Hd : drains it xs it').
  { eapply drains_more; [reflexivity|].
    eapply drains_more; [reflexivity|].
    apply drains_done. reflexivity. }
  assert (Hok : Forall (element_ok string_fits) xs).
  { repeat constructor; vm_compute; discriminate. }
  assert (Hf : (length xs < 3)%nat) by (simpl; lia).
  exact (conj Hd (conj Hok (conj Hf
           (rget_result_write_read_write it it' xs 3 rest Hd Hok Hf)))).
Defined.

(** Two bytes that are no frame: a true flag and half a size. *)
Lemma deserialize_rget_result_returns_witness :
  let s := vector_read_stream_t [x01; x07] in
  exists res s',
    deserialize_rget_result 3 s
    = Some (res, vector_backed_result vector_backed_new, s').
Proof.
  intros s. exact (deserialize_rget_result_returns s).
Defined.

(** The pair of the created store, with two bytes after its key. *)
Lemma get_metainfo_internal_ignores_trailing_bytes_witness :
  Store.get_metainfo_internal
    (mk_store [(serialize universe ++ [x2a; x2b], [x05])] (btree created))
  = Store.get_metainfo_internal
      (mk_store [(serialize universe, [x05])] (btree created)).
Proof.
  exact (get_metainfo_internal_ignores_trailing_bytes
           [(universe, [x05], [x2a; x2b])] (btree created)).
Defined.

